(** * openauction: the secure bid processing core

    A shallow embedding of the replay-token store ([enclave/tokenmanager.go]),
    the hybrid decryption glue ([enclave/crypto.go], [enclave/testcryptoutils.go])
    and the bid ranker ([core], [RankCoreBids]), with the properties the
    specification states about them. *)

From Stdlib Require Import ZArith Strings.Ascii Strings.Byte Floats.SpecFloat Sorting Permutation.
From stdpp Require Import gmap strings list fin_maps sorting relations.

Local Open Scope string_scope.
Local Open Scope list_scope.

(** ** enclave/tokenmanager.go *)

Module TokenManager.

(** [time.Time] is kept as a number of nanoseconds. *)
Record AuctionToken := mkAuctionToken {
  TokenID : string;
  CreatedAt : Z
}.

(** [TokenManager] has the single field [tokens sync.Map]; the map is the
    state that every method threads. *)
Abbreviation TokenStore := (gmap string AuctionToken).

Definition NewTokenManager : TokenStore := ∅.

(** The [sync.Map] methods used by the token manager. Each is one atomic
    operation on the map. *)
Definition Store (key : string) (value : AuctionToken) (m : TokenStore) : TokenStore :=
  <[key := value]> m.

Definition Load (key : string) (m : TokenStore) : option AuctionToken * bool :=
  (m !! key, bool_decide (is_Some (m !! key))).

Definition LoadAndDelete (key : string) (m : TokenStore)
  : (option AuctionToken * bool) * TokenStore :=
  ((m !! key, bool_decide (is_Some (m !! key))), delete key m).

Definition Delete (key : string) (m : TokenStore) : TokenStore := delete key m.

(** [GenerateToken]: [uuid.New().String()] and [time.Now()] are inputs. *)
Definition GenerateToken (uuid : string) (now : Z) (tm : TokenStore)
  : string * TokenStore :=
  let tokenID := uuid in
  (tokenID, Store tokenID (mkAuctionToken tokenID now) tm).

Definition ValidateToken (tokenID : string) (tm : TokenStore) : bool :=
  if String.eqb tokenID "" then false
  else let '(_, exists_) := Load tokenID tm in exists_.

Definition ValidateAndConsumeToken (tokenID : string) (tm : TokenStore)
  : bool * TokenStore :=
  if String.eqb tokenID "" then (false, tm)
  else let '((_, existed), tm') := LoadAndDelete tokenID tm in (existed, tm').

Definition ConsumeToken (tokenID : string) (tm : TokenStore) : TokenStore :=
  Delete tokenID tm.

Definition ConsumeTokens (tokenIDs : list string) (tm : TokenStore) : TokenStore :=
  foldl (fun m tokenID => Delete tokenID m) tm tokenIDs.

(** [Count] ranges over the map and counts the entries. *)
Definition Count (tm : TokenStore) : nat :=
  map_fold (fun _ _ count => S count) 0 tm.

(** Every identifier in the store was put there by [GenerateToken], whose
    identifiers are UUID strings: the empty string is never a key. *)
Definition issued_only (tm : TokenStore) : Prop := tm !! "" = None.

(** *** Concurrent callers

    A goroutine running [ValidateAndConsumeToken] touches the shared map in
    one place only, the call of [LoadAndDelete], which [sync.Map] performs
    atomically. A caller is therefore either still pending or has returned,
    and a step of the system lets any pending caller run its call to
    completion against the current store. Every interleaving of the callers
    is a sequence of such steps. *)
Inductive caller :=
| Pending (tokenID : string)
| Returned (result : bool).

Definition config : Type := TokenStore * list caller.

Inductive step : config -> config -> Prop :=
| step_call tm cs i tokenID :
    cs !! i = Some (Pending tokenID) ->
    step (tm, cs)
         ((ValidateAndConsumeToken tokenID tm).2,
          <[i := Returned (ValidateAndConsumeToken tokenID tm).1]> cs).

Definition has_returned (c : caller) : bool :=
  match c with Returned _ => true | Pending _ => false end.

Definition finished (cs : list caller) : Prop :=
  forallb has_returned cs = true.

Definition returned_with (b : bool) (c : caller) : bool :=
  match c with Returned r => Bool.eqb r b | Pending _ => false end.

(** Number of callers that have returned [b]. *)
Definition results (b : bool) (cs : list caller) : nat :=
  length (List.filter (returned_with b) cs).

(** A scheduler that runs the callers in the order given by a list of
    goroutine indices. *)
Fixpoint run (schedule : list nat) (c : config) : config :=
  match schedule with
  | [] => c
  | i :: rest =>
      match c.2 !! i with
      | Some (Pending tokenID) =>
          run rest ((ValidateAndConsumeToken tokenID c.1).2,
                    <[i := Returned (ValidateAndConsumeToken tokenID c.1).1]> c.2)
      | _ => run rest c
      end
  end.

(** The callers other than the winner are pending on [t] or have lost. *)
Definition racing (t : string) (c : caller) : Prop := c = Pending t \/ exists r, c = Returned r.

(** Invariant of every interleaving of callers racing on one present,
    non-empty identifier: before the first call completes nothing has
    changed; afterwards the entry is gone and exactly one caller won. *)
Definition race_inv (t : string) (tm0 : TokenStore) (n : nat) (c : config) : Prop :=
  length c.2 = n /\ Forall (racing t) c.2 /\
  ((c.1 = tm0 /\ c.2 = replicate n (Pending t)) \/
   (c.1 = delete t tm0 /\ results true c.2 = 1)).

(** *** Expiration

    [time.Duration] is an int64 count of nanoseconds. [t.Sub(u)] is the
    difference of two times as a [Duration]; when the difference does not
    fit, Go returns the largest (or smallest) [Duration]. *)
Definition maxDuration : Z := 9223372036854775807.
Definition minDuration : Z := -9223372036854775808.

Definition Sub (t u : Z) : Z := Z.max minDuration (Z.min maxDuration (t - u)).

(** [now.Sub(token.CreatedAt) > maxAge]. *)
Definition is_expired (now maxAge : Z) (token : AuctionToken) : bool :=
  (maxAge <? Sub now (CreatedAt token))%Z.

(** What a sweep leaves of a token. *)
Definition kept (now maxAge : Z) (token : AuctionToken) : option AuctionToken :=
  if is_expired now maxAge token then None else Some token.

(** The function [RemoveExpired] hands to [Range], on the pair [Range]
    visits: it deletes the key of an expired token and counts it. *)
Definition removeIfExpired (now maxAge : Z) (st : TokenStore * nat)
    (visited : string * AuctionToken) : TokenStore * nat :=
  let '(tm, expiredCount) := st in
  let tokenID := visited.1 in
  let token := visited.2 in
  if is_expired now maxAge token
  then (Delete tokenID tm, S expiredCount)
  else (tm, expiredCount).

(** [RemoveExpired] when [Range] visits the pairs of the map in the order
    [visits]; [time.Now()] is an input. With no other goroutine at work,
    [Range] visits every pair of the map once, in an order that [sync.Map]
    does not specify. *)
Definition RemoveExpiredIn (visits : list (string * AuctionToken)) (now maxAge : Z)
    (tm : TokenStore) : nat * TokenStore :=
  let '(tm', expiredCount) := foldl (removeIfExpired now maxAge) (tm, 0) visits in
  (expiredCount, tm').

(** [RemoveExpired] in the order in which the model lists the map. *)
Definition RemoveExpired (now maxAge : Z) (tm : TokenStore) : nat * TokenStore :=
  RemoveExpiredIn (map_to_list tm) now maxAge tm.

(** The goroutine of [StartExpirationCleanup] and the two channels its
    [select] waits on. [ctx.Done()] is closed when the context is cancelled
    and is ready from then on; [ticker.C] has room for one tick. [select]
    proceeds with a case that is ready and, when both are, with either of
    them: a tick that is ready when the context is cancelled may still be
    served. A tick that finds the channel full is dropped, and after the
    goroutine has returned its deferred [ticker.Stop()] has run and no tick
    is sent. [swept] lists the times the sweeps have read from [time.Now()],
    the latest first. No other goroutine works on the store. *)
Record cleanup := mkCleanup {
  tokens : TokenStore;
  ctx_Done : bool;      (* the context is cancelled *)
  ticker_C : bool;      (* a tick waits in the channel *)
  exited : bool;        (* the goroutine has returned *)
  swept : list Z
}.

Inductive cleanup_step (maxAge : Z) : cleanup -> cleanup -> Prop :=
| context_cancelled s :
    cleanup_step maxAge s
      (mkCleanup (tokens s) true (ticker_C s) (exited s) (swept s))
| ticker_fires s :
    exited s = false ->
    cleanup_step maxAge s
      (mkCleanup (tokens s) (ctx_Done s) true (exited s) (swept s))
| select_ctx_Done s :
    exited s = false -> ctx_Done s = true ->
    cleanup_step maxAge s
      (mkCleanup (tokens s) (ctx_Done s) (ticker_C s) true (swept s))
| select_ticker_C s now :
    exited s = false -> ticker_C s = true ->
    cleanup_step maxAge s
      (mkCleanup (RemoveExpired now maxAge (tokens s)).2 (ctx_Done s) false false
                 (now :: swept s)).

(** The state in which [StartExpirationCleanup] leaves the goroutine, for a
    context that is or is not cancelled already. *)
Definition StartExpirationCleanup (cancelled : bool) (tm : TokenStore) : cleanup :=
  mkCleanup tm cancelled false false [].

(** What is left of a token after sweeps at the given times. *)
Definition after_sweeps (maxAge : Z) (times : list Z) (token : AuctionToken)
    : option AuctionToken :=
  if existsb (fun now => is_expired now maxAge token) times then None else Some token.

(** *** Sequences of calls *)

(** A call of one of the methods, with what it reads from outside. *)
Inductive call :=
| CallGenerateToken (uuid : string) (now : Z)
| CallValidateToken (tokenID : string)
| CallValidateAndConsumeToken (tokenID : string)
| CallConsumeToken (tokenID : string)
| CallConsumeTokens (tokenIDs : list string)
| CallRemoveExpired (now maxAge : Z)
| CallCount.

(** The store after a call. *)
Definition perform (tm : TokenStore) (c : call) : TokenStore :=
  match c with
  | CallGenerateToken uuid now => (GenerateToken uuid now tm).2
  | CallValidateToken _ => tm
  | CallValidateAndConsumeToken tokenID => (ValidateAndConsumeToken tokenID tm).2
  | CallConsumeToken tokenID => ConsumeToken tokenID tm
  | CallConsumeTokens tokenIDs => ConsumeTokens tokenIDs tm
  | CallRemoveExpired now maxAge => (RemoveExpired now maxAge tm).2
  | CallCount => tm
  end.

(** The call issues the identifier [t]. *)
Definition issues (t : string) (c : call) : Prop :=
  match c with
  | CallGenerateToken uuid _ => uuid = t
  | _ => False
  end.

(** Every entry is filed under its own identifier. *)
Definition keyed_by_id (tm : TokenStore) : Prop :=
  forall k token, tm !! k = Some token -> TokenID token = k.

(** The identifiers, other than the empty one, that a list of callers has
    asked for. *)
Definition asked (tokenIDs : list string) : gset string :=
  list_to_set (filter (fun t => t <> "") tokenIDs).

(** Vocabulary for the proof about interleavings. With [D] the identifiers
    consumed so far: the caller for [t] is still pending, or has returned
    after [t], if not empty, was consumed. *)
Definition answered (D : gset string) (t : string) (c : caller) : Prop :=
  c = Pending t \/ exists r, c = Returned r /\ (t = "" \/ t ∈ D).

(** Invariant of the interleavings of callers asking for [tokenIDs] on the
    store [tm0]: the store is [tm0] without the identifiers consumed so far,
    and there is one [true] per consumed identifier that [tm0] held. *)
Definition consumed_so_far (tokenIDs : list string) (tm0 : TokenStore) (c : config)
    : Prop :=
  exists D : gset string,
    Forall2 (answered D) tokenIDs c.2 /\
    D ⊆ asked tokenIDs /\
    (forall k, c.1 !! k = if decide (k ∈ D) then None else tm0 !! k) /\
    results true c.2 = size (D ∩ dom tm0).

End TokenManager.

(** ** core: bids and their ranking *)

Module Core.

(** [float64] values are the IEEE 754 binary64 numbers, given by the
    Standard Library's [spec_float] (sign, mantissa and exponent, the two
    zeros, the two infinities, NaN). *)
Abbreviation float64 := spec_float.

Definition valid_float64 (x : float64) : bool := valid_binary 53 1024 x.

(** Go's [x > y] and [x >= y] on [float64]: false whenever an operand is NaN. *)
Definition float64_gt (x y : float64) : bool := SFltb y x.
Definition float64_ge (x y : float64) : bool := SFleb y x.

Definition is_NaN (x : float64) : bool :=
  match x with S754_nan => true | _ => false end.

Record CoreBid := mkCoreBid {
  ID : string;
  Bidder : string;
  Price : float64;
  Currency : string;
  DealID : string;
  BidType : string
}.

(** Encrypted price data: three base64 strings. *)
Record EncryptedBidPrice := mkEncryptedBidPrice {
  AESKeyEncrypted : string;
  EncryptedPayload : string;
  Nonce : string
}.

(** What [EncryptedPayload] holds once decrypted. The fields are [Price] and
    [AuctionToken] in the source; an absent [auction_token] is the empty
    string. *)
Record DecryptedBidPayload := mkDecryptedBidPayload {
  payload_Price : float64;
  payload_AuctionToken : string
}.

(** A [*CoreBid] obtained as [&bids[i]]: the index it points at together
    with the element found there (the slice is not written during the
    call). *)
Record BidRef := mkBidRef {
  index : nat;
  deref : CoreBid
}.

Record CoreRankingResult := mkCoreRankingResult {
  Ranks : gmap string nat;
  HighestBids : gmap string BidRef;
  SortedBidders : list string
}.

Record BidEntry := mkBidEntry {
  bidder : string;
  bid : BidRef
}.

(** What the Go language and its library leave open in [RankCoreBids]: the
    order in which [for ... range] visits a map, and the algorithm behind
    [sort.Slice]. *)
Class GoRuntime := {
  map_range : gmap string BidRef -> list (string * BidRef);
  sort_Slice : forall A : Type, (A -> A -> bool) -> list A -> list A
}.
Global Arguments sort_Slice {_ _} _ _.

(** [less] behaves as a strict weak ordering on the elements of [l]. *)
Definition strict_weak_on {A} (less : A -> A -> bool) (l : list A) : Prop :=
  (forall x, x ∈ l -> less x x = false) /\
  (forall x y z, x ∈ l -> y ∈ l -> z ∈ l ->
     less x y = true -> less y z = true -> less x z = true) /\
  (forall x y z, x ∈ l -> y ∈ l -> z ∈ l ->
     less x y = false -> less y z = false -> less x z = false).

(** What Go guarantees about them: [range] visits every pair of the map
    once, in an order that is not specified; [sort.Slice] permutes the slice
    and, for a [less] that is a strict weak ordering, leaves no element
    before one that is less than it. *)
Class GoRuntimeLaws (rt : GoRuntime) : Prop := {
  map_range_perm : forall m, map_range m ≡ₚ map_to_list m;
  sort_Slice_perm : forall A (less : A -> A -> bool) l, sort_Slice less l ≡ₚ l;
  sort_Slice_sorted : forall A (less : A -> A -> bool) l,
    strict_weak_on less l ->
    StronglySorted (fun x y => less y x = false) (sort_Slice less l)
}.

(** The first loop: per bidder, keep a pointer to the bid with the highest
    price seen so far; a later bid replaces it only when strictly higher. *)
Fixpoint group_bids (i : nat) (bids : list CoreBid) (bidderMap : gmap string BidRef)
  : gmap string BidRef :=
  match bids with
  | [] => bidderMap
  | b :: rest =>
      let bid := mkBidRef i b in
      let bidderMap' :=
        match bidderMap !! Bidder b with
        | Some existing =>
            if float64_gt (Price b) (Price (deref existing))
            then <[Bidder b := bid]> bidderMap
            else bidderMap
        | None => <[Bidder b := bid]> bidderMap
        end in
      group_bids (S i) rest bidderMap'
  end.

(** The [less] function given to [sort.Slice]. *)
Definition less_entry (x y : BidEntry) : bool :=
  float64_gt (Price (deref (bid x))) (Price (deref (bid y))).

(** The last loop: [for rank, entry := range entries]. *)
Fixpoint assign_ranks (rank : nat) (entries : list BidEntry)
    (result : CoreRankingResult) : CoreRankingResult :=
  match entries with
  | [] => result
  | entry :: rest =>
      let rankValue := rank + 1 in
      assign_ranks (S rank) rest
        {| Ranks := <[bidder entry := rankValue]> (Ranks result);
           HighestBids := <[bidder entry := bid entry]> (HighestBids result);
           SortedBidders := <[rank := bidder entry]> (SortedBidders result) |}
  end.

Definition RankCoreBids `{GoRuntime} (bids : list CoreBid) : CoreRankingResult :=
  match bids with
  | [] => {| Ranks := ∅; HighestBids := ∅; SortedBidders := [] |}
  | _ =>
      let bidderMap := group_bids 0 bids ∅ in
      let entries :=
        (fun p : string * BidRef => mkBidEntry p.1 p.2) <$> map_range bidderMap in
      let entries := sort_Slice less_entry entries in
      assign_ranks 0 entries
        {| Ranks := ∅; HighestBids := ∅;
           SortedBidders := replicate (length entries) "" |}
  end.

(** On a short slice [sort.Slice] runs Go's insertion sort:
    [for i := a+1; i < b; i++ { for j := i; j > a && less(j, j-1); j-- { swap(j, j-1) } }].
    The sorted prefix is kept reversed, so that its head is the element the
    inner loop compares with first. *)
Fixpoint sift_down {A} (less : A -> A -> bool) (x : A) (prefix_rev : list A) : list A :=
  match prefix_rev with
  | [] => [x]
  | y :: rest => if less x y then y :: sift_down less x rest else x :: y :: rest
  end.

Definition insertionSort {A} (less : A -> A -> bool) (l : list A) : list A :=
  reverse (fold_left (fun prefix_rev x => sift_down less x prefix_rev) l []).

(** Two runs of the program that differ only in the order [range] picks:
    the order in which the model lists the map, and the reverse of it. *)
Definition runtime_forward : GoRuntime :=
  {| map_range := map_to_list; sort_Slice := @insertionSort |}.

Definition runtime_backward : GoRuntime :=
  {| map_range := fun m => reverse (map_to_list m); sort_Slice := @insertionSort |}.

(** The number of distinct bidder identifiers of a bid list. *)
Definition distinct_bidders (bids : list CoreBid) : nat :=
  length (remove_dups (Bidder <$> bids)).

(** *** Vocabulary for the properties of a ranking result *)

(** The three parts of a result describe the same [N] bidders: each has
    [N] entries, the ranks are the numbers [1..N], no bidder is listed
    twice, and the rank of a bidder is one more than its position in
    [SortedBidders]. *)
Definition ranking_consistent (r : CoreRankingResult) (N : nat) : Prop :=
  size (Ranks r) = N /\ size (HighestBids r) = N /\ length (SortedBidders r) = N /\
  ((map_to_list (Ranks r)).*2 ≡ₚ seq 1 N) /\
  NoDup (SortedBidders r) /\
  (forall b i, SortedBidders r !! i = Some b -> Ranks r !! b = Some (1 + i)) /\
  (forall b k, Ranks r !! b = Some k ->
     exists i, k = 1 + i /\ SortedBidders r !! i = Some b).

(** Successive bidders of [SortedBidders] have non-increasing retained
    prices. *)
Definition descending_prices (r : CoreRankingResult) : Prop :=
  forall i b1 b2, SortedBidders r !! i = Some b1 -> SortedBidders r !! (S i) = Some b2 ->
    exists r1 r2, HighestBids r !! b1 = Some r1 /\ HighestBids r !! b2 = Some r2 /\
      float64_ge (Price (deref r1)) (Price (deref r2)) = true.

(** The bid retained for [b] is a bid of [b] in the input; no bid of [b] is
    priced above it, and no earlier bid of [b] is priced at or above it. *)
Definition retains_first_highest (bids : list CoreBid) (r : CoreRankingResult)
    (b : string) : Prop :=
  exists ref, HighestBids r !! b = Some ref /\
    bids !! index ref = Some (deref ref) /\ Bidder (deref ref) = b /\
    forall j c, bids !! j = Some c -> Bidder c = b ->
      float64_gt (Price c) (Price (deref ref)) = false /\
      (j < index ref -> float64_ge (Price c) (Price (deref ref)) = false).

(** No two bidders are retained at prices that tie or do not compare. *)
Definition no_price_ties (m : gmap string BidRef) : Prop :=
  forall b1 b2 r1 r2, b1 <> b2 -> m !! b1 = Some r1 -> m !! b2 = Some r2 ->
    float64_gt (Price (deref r1)) (Price (deref r2)) = true \/
    float64_gt (Price (deref r2)) (Price (deref r1)) = true.

Definition no_NaN_price (bids : list CoreBid) : Prop :=
  Forall (fun c => is_NaN (Price c) = false) bids.

(** *** Inputs used in examples

    The prices 2.25, 2.50 and 2.75 of [TestRankCoreBids_Integration] as
    binary64 values, and bids built from them. *)
Definition price_2_25 : float64 := S754_finite false 5066549580791808 (-51).
Definition price_2_50 : float64 := S754_finite false 5629499534213120 (-51).
Definition price_2_75 : float64 := S754_finite false 6192449487634432 (-51).

Definition usd_bid (id bidder : string) (price : float64) : CoreBid :=
  mkCoreBid id bidder price "USD" "" "".

Definition integration_bids : list CoreBid :=
  [usd_bid "bid_a_001" "bidder_a" price_2_50;
   usd_bid "bid_b_001" "bidder_b" price_2_25;
   usd_bid "bid_c_001" "bidder_c" price_2_75].

(** A bidder with three bids, the last two at the same, highest price. *)
Definition repeated_bids : list CoreBid :=
  [usd_bid "bid_a_001" "bidder_a" price_2_50;
   usd_bid "bid_a_002" "bidder_a" price_2_75;
   usd_bid "bid_b_001" "bidder_b" price_2_25;
   usd_bid "bid_a_003" "bidder_a" price_2_75].

(** Two bidders at the same price. *)
Definition tied_bids : list CoreBid :=
  [usd_bid "bid_a_001" "bidder_a" price_2_50;
   usd_bid "bid_b_001" "bidder_b" price_2_50].

(** A bidder whose first bid has a NaN price and whose second is at 2.50. *)
Definition NaN_first_bids : list CoreBid :=
  [usd_bid "bid_a_001" "bidder_a" S754_nan;
   usd_bid "bid_a_002" "bidder_a" price_2_50].

(** A bid whose price is NaN among two ordinary bids. *)
Definition NaN_bids : list CoreBid :=
  [usd_bid "bid_a_001" "bidder_a" S754_nan;
   usd_bid "bid_b_001" "bidder_b" price_2_50;
   usd_bid "bid_c_001" "bidder_c" price_2_25].

(** *** Vocabulary for the proofs about the loops *)

(** State of [bidderMap] once the bids [pre] have been visited: every entry
    points at a visited bid of its bidder; every visited bid has an entry
    under its bidder, is not priced above it, and is not priced at or above
    it when it comes earlier in the input. *)
Definition grouped (pre : list CoreBid) (m : gmap string BidRef) : Prop :=
  (forall b r, m !! b = Some r ->
     pre !! index r = Some (deref r) /\ Bidder (deref r) = b) /\
  (forall j c, pre !! j = Some c ->
     exists r, m !! Bidder c = Some r /\
       float64_gt (Price c) (Price (deref r)) = false /\
       (j < index r -> float64_ge (Price c) (Price (deref r)) = false)).

(** One iteration of the loop, on the bid [c] at index [length pre]. *)
Definition visit (pre : list CoreBid) (c : CoreBid) (m : gmap string BidRef)
  : gmap string BidRef :=
  match m !! Bidder c with
  | Some existing =>
      if float64_gt (Price c) (Price (deref existing))
      then <[Bidder c := mkBidRef (length pre) c]> m
      else m
  | None => <[Bidder c := mkBidRef (length pre) c]> m
  end.

(** An entry as the pair the map holds. *)
Definition entry_pair (e : BidEntry) : string * BidRef := (bidder e, bid e).

(** The slice [entries] after [sort.Slice]. *)
Definition sorted_entries `{GoRuntime} (bids : list CoreBid) : list BidEntry :=
  sort_Slice less_entry
    ((fun p : string * BidRef => mkBidEntry p.1 p.2) <$> map_range (group_bids 0 bids ∅)).

(** The reversed prefix is in order: no element is less than one behind it. *)
Definition prefix_sorted {A} (less : A -> A -> bool) (acc : list A) : Prop :=
  StronglySorted (fun x y => less x y = false) acc.

End Core.

(** ** enclave: hybrid encryption and the bid pipeline *)

Module Enclave.

Abbreviation bytes := (list byte).

(** [fmt.Errorf] results of [DecryptHybrid], one constructor per message. *)
Inductive DecryptError :=
| ErrDecodeAESKey          (* failed to decode encrypted AES key *)
| ErrDecodePayload         (* failed to decode encrypted payload *)
| ErrDecodeNonce           (* failed to decode nonce *)
| ErrDecryptAESKey         (* failed to decrypt AES key *)
| ErrAESKeyLength (got : nat)            (* invalid AES key length *)
| ErrCreateCipher          (* failed to create AES cipher *)
| ErrCreateGCM             (* failed to create GCM *)
| ErrNonceLength (expected got : nat)    (* invalid nonce length *)
| ErrDecryptPayload.       (* failed to decrypt payload *)

(** [fmt.Errorf] results of [EncryptHybrid]. *)
Inductive EncryptError :=
| ErrGenerateAESKey
| ErrEncCreateCipher
| ErrEncCreateGCM
| ErrGenerateNonce
| ErrEncryptAESKey.

(** The packages of Go's library that the enclave calls: [encoding/base64]
    ([StdEncoding]), [crypto/rand] (the state of [rand.Reader] is threaded),
    [crypto/rsa] (OAEP with SHA-256 and a nil label; decryption uses the
    reader for blinding only and its result does not depend on it),
    [crypto/aes], [crypto/cipher] (GCM) and [encoding/json] (unmarshalling
    into [DecryptedBidPayload]). A failing call returns [None]. *)
Class GoLibrary := {
  PrivateKey : Type;
  PublicKey : Type;
  PublicKeyOf : PrivateKey -> PublicKey;      (* [&privateKey.PublicKey] *)
  Rand : Type;
  Block : Type;
  AEAD : Type;
  base64_EncodeToString : bytes -> string;
  base64_DecodeString : string -> option bytes;
  rand_Read : nat -> Rand -> option bytes * Rand;
  rsa_EncryptOAEP : Rand -> PublicKey -> bytes -> option bytes * Rand;
  rsa_DecryptOAEP : PrivateKey -> bytes -> option bytes;
  aes_NewCipher : bytes -> option Block;
  cipher_NewGCM : Block -> option AEAD;
  NonceSize : AEAD -> nat;
  Seal : AEAD -> bytes -> bytes -> bytes;     (* [Seal(nil, nonce, plaintext, nil)] *)
  Open : AEAD -> bytes -> bytes -> option bytes;
  json_Unmarshal : bytes -> option Core.DecryptedBidPayload
}.

(** What the library documents about them: decoding undoes encoding; a
    successful [rand.Read] fills the whole slice; OAEP decryption under a
    private key undoes encryption under its public key; [Open] undoes [Seal]
    under the same cipher and nonce. *)
Class GoLibraryLaws (L : GoLibrary) : Prop := {
  base64_round_trip : forall b, base64_DecodeString (base64_EncodeToString b) = Some b;
  rand_Read_length : forall n r b r', rand_Read n r = (Some b, r') -> length b = n;
  rsa_oaep_round_trip : forall r priv msg c r',
    rsa_EncryptOAEP r (PublicKeyOf priv) msg = (Some c, r') ->
    rsa_DecryptOAEP priv c = Some msg;
  gcm_round_trip : forall aead nonce plaintext,
    length nonce = NonceSize aead ->
    Open aead nonce (Seal aead nonce plaintext) = Some plaintext
}.

(** [x, err := call; if err != nil { return nil, wrapped }]. *)
Definition orReturn {E A B} (call : option A) (wrapped : E) (k : A -> E + B) : E + B :=
  match call with
  | Some x => k x
  | None => inl wrapped
  end.

Notation "x <- call 'orelse' wrapped ;; k" := (orReturn call wrapped (fun x => k))
  (at level 20, call at level 100, wrapped at level 9, k at level 200, only parsing).

Section Hybrid.
Context {L : GoLibrary}.

(** *** enclave/crypto.go *)

Definition DecryptHybrid (encryptedAESKey encryptedPayload nonceB64 : string)
    (privateKey : PrivateKey) : DecryptError + bytes :=
  encryptedAESKeyBytes <- base64_DecodeString encryptedAESKey orelse ErrDecodeAESKey ;;
  encryptedPayloadBytes <- base64_DecodeString encryptedPayload orelse ErrDecodePayload ;;
  nonceBytes <- base64_DecodeString nonceB64 orelse ErrDecodeNonce ;;
  aesKey <- rsa_DecryptOAEP privateKey encryptedAESKeyBytes orelse ErrDecryptAESKey ;;
  if negb (Nat.eqb (length aesKey) 32) then inl (ErrAESKeyLength (length aesKey)) else
  block <- aes_NewCipher aesKey orelse ErrCreateCipher ;;
  aesgcm <- cipher_NewGCM block orelse ErrCreateGCM ;;
  if negb (Nat.eqb (length nonceBytes) (NonceSize aesgcm))
  then inl (ErrNonceLength (NonceSize aesgcm) (length nonceBytes)) else
  plaintext <- Open aesgcm nonceBytes encryptedPayloadBytes orelse ErrDecryptPayload ;;
  inr plaintext.

(** *** enclave/testcryptoutils.go *)

Record HybridEncryptionResult := mkHybridEncryptionResult {
  EncryptedAESKey : string;
  EncryptedPayload : string;
  Nonce : string
}.

Definition EncryptHybrid (plaintext : bytes) (publicKey : PublicKey) (rand : Rand)
    : (EncryptError + HybridEncryptionResult) * Rand :=
  match rand_Read 32 rand with
  | (None, rand) => (inl ErrGenerateAESKey, rand)
  | (Some aesKey, rand) =>
  match aes_NewCipher aesKey with
  | None => (inl ErrEncCreateCipher, rand)
  | Some block =>
  match cipher_NewGCM block with
  | None => (inl ErrEncCreateGCM, rand)
  | Some aesgcm =>
  match rand_Read (NonceSize aesgcm) rand with
  | (None, rand) => (inl ErrGenerateNonce, rand)
  | (Some nonceBytes, rand) =>
  let ciphertext := Seal aesgcm nonceBytes plaintext in
  match rsa_EncryptOAEP rand publicKey aesKey with
  | (None, rand) => (inl ErrEncryptAESKey, rand)
  | (Some encryptedAESKeyBytes, rand) =>
      (inr {| EncryptedAESKey := base64_EncodeToString encryptedAESKeyBytes;
              EncryptedPayload := base64_EncodeToString ciphertext;
              Nonce := base64_EncodeToString nonceBytes |}, rand)
  end end end end end.

End Hybrid.

(** *** The bid pipeline *)

Section Pipeline.
Context {L : GoLibrary}.

(** Modelled from the spec: [enclaveapi.EncryptedCoreBid], whose declaration
    is not among the sources; the tests build it from an embedded [CoreBid]
    and an optional [*core.EncryptedBidPrice] (section 6 of the spec: the bid
    submission record with its optional [encrypted_price]). *)
Record EncryptedCoreBid := mkEncryptedCoreBid {
  CoreBid : Core.CoreBid;
  EncryptedPrice : option Core.EncryptedBidPrice
}.

(** Modelled from the spec: the key manager, of which the pipeline uses the
    enclave's private key; an absent key manager is [None]. *)
Record KeyManager := mkKeyManager {
  km_PrivateKey : PrivateKey
}.

(** Modelled from the spec: the ExclusionRecord of section 3, "bid
    identifier, bidder identifier, and a reason code". *)
Record ExcludedBid := mkExcludedBid {
  BidID : string;
  Bidder : string;
  Reason : string
}.

(** Modelled from the spec: the reason codes of section 3, "decryption
    failure, invalid price, replay detected". *)
Definition reason_decryption_failed := "decryption failure".
Definition reason_invalid_price := "invalid price".
Definition reason_replay_detected := "replay detected".

(** Modelled from the spec: why a bid could not be resolved to a price,
    either an error of [DecryptHybrid] or a plaintext that is not a
    DecryptedPayload. *)
Inductive ResolveError :=
| DecryptFailed (cause : DecryptError)
| PayloadMalformed.

(** Modelled from the spec: an error report names the bid and keeps the
    cause ("preserving the original cause as a separate diagnostic field"). *)
Record ErrorReport := mkErrorReport {
  report_BidID : string;
  report_Bidder : string;
  report_cause : ResolveError
}.

(** Modelled from the spec: a resolved bid, its price in the clear, "carrying
    forward the optional auction token" (the empty string when absent). *)
Record DecryptedBid := mkDecryptedBid {
  bid : Core.CoreBid;
  AuctionToken : string
}.

(** Modelled from the spec: "overwrite the bid's price with the decrypted
    price"; the other fields of the bid stay. *)
Definition with_Price (b : Core.CoreBid) (price : Core.float64) : Core.CoreBid :=
  {| Core.ID := Core.ID b; Core.Bidder := Core.Bidder b; Core.Price := price;
     Core.Currency := Core.Currency b; Core.DealID := Core.DealID b;
     Core.BidType := Core.BidType b |}.

(** Modelled from the spec: section 4.3, the three cases for one bid. No
    EncryptedPrice: the bid passes through with its plaintext price. No key
    manager: every bid passes through with whatever plaintext price it
    carries. Otherwise [DecryptHybrid] under the enclave's private key, then
    the plaintext parsed as a DecryptedPayload whose price overwrites the
    bid's. *)
Definition resolveBid (keyManager : option KeyManager) (eb : EncryptedCoreBid)
    : ResolveError + DecryptedBid :=
  match EncryptedPrice eb, keyManager with
  | None, _ => inr (mkDecryptedBid (CoreBid eb) "")
  | Some _, None => inr (mkDecryptedBid (CoreBid eb) "")
  | Some ep, Some km =>
      match DecryptHybrid (Core.AESKeyEncrypted ep) (Core.EncryptedPayload ep)
                          (Core.Nonce ep) (km_PrivateKey km) with
      | inl err => inl (DecryptFailed err)
      | inr plaintext =>
          match json_Unmarshal plaintext with
          | None => inl PayloadMalformed
          | Some payload =>
              inr (mkDecryptedBid (with_Price (CoreBid eb) (Core.payload_Price payload))
                                  (Core.payload_AuctionToken payload))
          end
      end
  end.

(** Modelled from the spec: the three outputs of [decryptAll],
    "(decryptedBids, excludedBids, errorReports)". *)
Definition pipeline_state : Type :=
  list DecryptedBid * list ExcludedBid * list ErrorReport.

(** Modelled from the spec: one round of the loop of [decryptAllBids]. A
    resolved bid is appended to the decrypted bids; a failure appends "one
    ExclusionRecord and one error report for that bid". *)
Definition decryptOne (keyManager : option KeyManager) (acc : pipeline_state)
    (eb : EncryptedCoreBid) : pipeline_state :=
  let '(decryptedBids, excludedBids, errors) := acc in
  match resolveBid keyManager eb with
  | inr d => (decryptedBids ++ [d], excludedBids, errors)
  | inl cause =>
      (decryptedBids,
       excludedBids ++ [mkExcludedBid (Core.ID (CoreBid eb)) (Core.Bidder (CoreBid eb))
                                      reason_decryption_failed],
       errors ++ [mkErrorReport (Core.ID (CoreBid eb)) (Core.Bidder (CoreBid eb)) cause])
  end.

(** Modelled from the spec: [decryptAllBids], section 4.3 ([decryptAll]); its
    body is not among the sources, only its tests. Every bid is visited in
    input order; a failure adds one ExclusionRecord and one error report and
    the loop goes on. *)
Definition decryptAllBids (encBids : list EncryptedCoreBid)
    (keyManager : option KeyManager) : pipeline_state :=
  foldl (decryptOne keyManager) ([], [], []) encBids.

(** Modelled from the spec: section 4.4, "price must be a finite number
    strictly greater than zero"; the finite numbers are the zeros and the
    numbers with a mantissa. *)
Definition is_finite (x : Core.float64) : bool :=
  match x with
  | S754_zero _ | S754_finite _ _ _ => true
  | S754_infinity _ | S754_nan => false
  end.

(** Modelled from the spec: the price sanity rule of section 4.4. *)
Definition valid_price (x : Core.float64) : bool :=
  is_finite x && Core.float64_gt x (S754_zero false).

(** Modelled from the spec: one round of the loop of
    [filterBidsByConsumedTokens], the two checks of section 4.4 in order. *)
Definition filterOne (consumedTokens : gset string)
    (acc : list Core.CoreBid * list ExcludedBid) (d : DecryptedBid)
    : list Core.CoreBid * list ExcludedBid :=
  let '(admissible, exclusions) := acc in
  let exclude reason :=
    (admissible,
     exclusions ++ [mkExcludedBid (Core.ID (bid d)) (Core.Bidder (bid d)) reason]) in
  if negb (valid_price (Core.Price (bid d))) then exclude reason_invalid_price
  else if negb (String.eqb (AuctionToken d) "")
          && bool_decide (AuctionToken d ∈ consumedTokens)
  then exclude reason_replay_detected
  else (admissible ++ [bid d], exclusions).

(** Modelled from the spec: [filterBidsByConsumedTokens], section 4.4
    ([filterAdmissible]); its body is not among the sources, only its tests.
    Per bid and in order: the price check, then the replay check for a bid
    that carries a token. *)
Definition filterBidsByConsumedTokens (decryptedBids : list DecryptedBid)
    (consumedTokens : gset string) : list Core.CoreBid * list ExcludedBid :=
  foldl (filterOne consumedTokens) ([], []) decryptedBids.

(** What one bid contributes to each output. *)
Definition resolved (km : option KeyManager) (eb : EncryptedCoreBid) : option DecryptedBid :=
  match resolveBid km eb with inr d => Some d | inl _ => None end.

Definition exclusion_of (km : option KeyManager) (eb : EncryptedCoreBid)
  : option ExcludedBid :=
  match resolveBid km eb with
  | inr _ => None
  | inl _ => Some (mkExcludedBid (Core.ID (CoreBid eb)) (Core.Bidder (CoreBid eb))
                                 reason_decryption_failed)
  end.

Definition report_of (km : option KeyManager) (eb : EncryptedCoreBid)
  : option ErrorReport :=
  match resolveBid km eb with
  | inr _ => None
  | inl cause => Some (mkErrorReport (Core.ID (CoreBid eb)) (Core.Bidder (CoreBid eb)) cause)
  end.

(** The verdict of the filter on one bid: [None] admits it. *)
Definition verdict (consumedTokens : gset string) (d : DecryptedBid) : option string :=
  if negb (valid_price (Core.Price (bid d))) then Some reason_invalid_price
  else if negb (String.eqb (AuctionToken d) "")
          && bool_decide (AuctionToken d ∈ consumedTokens)
  then Some reason_replay_detected
  else None.

Definition admitted (consumedTokens : gset string) (d : DecryptedBid)
  : option Core.CoreBid :=
  match verdict consumedTokens d with None => Some (bid d) | Some _ => None end.

Definition filtered_out (consumedTokens : gset string) (d : DecryptedBid)
  : option ExcludedBid :=
  mkExcludedBid (Core.ID (bid d)) (Core.Bidder (bid d)) <$> verdict consumedTokens d.

End Pipeline.

(** *** A stand-in library for examples

    Keys are single bytes and the public key is the private key; a wrapped
    key is the AES key behind the byte of the key it was wrapped for, and
    unwrapping under another key fails; base64 is the text behind an equals
    sign; GCM is the identity with nonces of 12 bytes; the random source
    yields zero bytes; a payload whose price field starts with a minus sign
    is the price -1.50 and any other payload with a price the price 2.50. *)
Definition price_neg_1_50 : Core.float64 := S754_finite true 6755399441055744 (-52).

Definition stand_in_DecodeString (s : string) : option bytes :=
  match s with
  | String "="%char rest => Some (String.list_byte_of_string rest)
  | _ => None
  end.

Definition stand_in_DecryptOAEP (priv : byte) (c : bytes) : option bytes :=
  match c with
  | k :: msg => if Byte.eqb k priv then Some msg else None
  | [] => None
  end.

(** The bytes of the JSON text that opens a payload, up to the price. *)
Definition price_field : bytes := [x7b; x22; x70; x72; x69; x63; x65; x22; x3a].

Definition stand_in_Unmarshal (plaintext : bytes) : option Core.DecryptedBidPayload :=
  match drop (length price_field) plaintext with
  | [] => None
  | x2d :: _ => Some (Core.mkDecryptedBidPayload price_neg_1_50 "")
  | _ => Some (Core.mkDecryptedBidPayload Core.price_2_50 "")
  end.

Definition stand_in_library : GoLibrary :=
  {| PrivateKey := byte;
     PublicKey := byte;
     PublicKeyOf := fun priv => priv;
     Rand := unit;
     Block := bytes;
     AEAD := bytes;
     base64_EncodeToString := fun b => String "="%char (String.string_of_list_byte b);
     base64_DecodeString := stand_in_DecodeString;
     rand_Read := fun n r => (Some (replicate n x00), r);
     rsa_EncryptOAEP := fun r pub msg => (Some (pub :: msg), r);
     rsa_DecryptOAEP := stand_in_DecryptOAEP;
     aes_NewCipher := fun key => Some key;
     cipher_NewGCM := fun block => Some block;
     NonceSize := fun _ => 12;
     Seal := fun _ _ plaintext => plaintext;
     Open := fun _ _ ciphertext => Some ciphertext;
     json_Unmarshal := stand_in_Unmarshal |}.

(** The payloads of [TestDecryptBids_WrongKey] (price 2.50) and
    [TestDecryptBids_InvalidPrice] (price -1.50), as JSON text. *)
Definition payload_2_50 : bytes := price_field ++ [x32; x2e; x35; x7d].
Definition payload_neg_1_50 : bytes := price_field ++ [x2d; x31; x2e; x35; x7d].

(** A bid [bid1] of [bidder1] with no plaintext price, its price encrypted
    with [EncryptHybrid] for the public key [pub]. *)
Definition encrypted_bid (pub : byte) (payload : bytes) : EncryptedCoreBid :=
  mkEncryptedCoreBid
    (Core.mkCoreBid "bid1" "bidder1" (S754_zero false) "" "" "")
    (match EncryptHybrid (L:=stand_in_library) payload pub tt with
     | (inr r, _) =>
         Some (Core.mkEncryptedBidPrice (EncryptedAESKey r) (EncryptedPayload r) (Nonce r))
     | (inl _, _) => None
     end).

End Enclave.

(** * Properties *)

(** ** The replay-token store *)

Section TokenManagerFacts.
Import TokenManager.
Implicit Types (tm : gmap string AuctionToken) (cs : list caller) (t : string).

Lemma eqb_empty_false t : t <> "" -> String.eqb t "" = false.
Proof. intros Hne. by apply String.eqb_neq. Qed.

Lemma ValidateAndConsumeToken_nonempty t tm :
  t <> "" ->
  ValidateAndConsumeToken t tm = (bool_decide (is_Some (tm !! t)), delete t tm).
Proof.
  intros Hne. unfold ValidateAndConsumeToken, LoadAndDelete.
  by rewrite eqb_empty_false.
Qed.

Lemma ValidateAndConsumeToken_empty tm :
  ValidateAndConsumeToken "" tm = (false, tm).
Proof. reflexivity. Qed.

Lemma Count_size tm : Count tm = size tm.
Proof. reflexivity. Qed.

Lemma issued_only_GenerateToken uuid now tm :
  uuid <> "" -> issued_only tm -> issued_only (GenerateToken uuid now tm).2.
Proof.
  unfold issued_only, GenerateToken, Store. intros Hne H. simpl.
  by rewrite lookup_insert_ne.
Qed.

Lemma issued_only_ValidateAndConsumeToken t tm :
  issued_only tm -> issued_only (ValidateAndConsumeToken t tm).2.
Proof.
  unfold issued_only. intros H. destruct (decide (t = "")) as [->|Hne].
  - by rewrite ValidateAndConsumeToken_empty.
  - rewrite ValidateAndConsumeToken_nonempty by done. simpl.
    by rewrite lookup_delete_ne.
Qed.

(** Counting results under an update of one caller. *)
Lemma results_insert_pending b r cs i t :
  cs !! i = Some (Pending t) ->
  results b (<[i := Returned r]> cs) = results b cs + (if Bool.eqb r b then 1 else 0).
Proof.
  unfold results. revert i. induction cs as [|c cs IH]; intros [|i] Hi;
    try discriminate; simpl in *.
  - injection Hi as ->. simpl. destruct (Bool.eqb r b); simpl; lia.
  - specialize (IH i Hi). destruct (returned_with b c); simpl; lia.
Qed.

Lemma results_replicate_pending b n t : results b (replicate n (Pending t)) = 0.
Proof. unfold results. induction n; simpl; auto. Qed.

Lemma results_total cs :
  finished cs -> results true cs + results false cs = length cs.
Proof.
  unfold finished, results. induction cs as [|[t|[]] cs IH]; simpl; intros H;
    try discriminate; try specialize (IH H); simpl; lia.
Qed.

Lemma finished_replicate_pending n t : finished (replicate (S n) (Pending t)) -> False.
Proof. unfold finished. simpl. discriminate. Qed.

Lemma race_inv_init t tm0 n : race_inv t tm0 n (tm0, replicate n (Pending t)).
Proof.
  split; [apply length_replicate|]. split; [|by left].
  apply Forall_replicate. by left.
Qed.

Lemma race_inv_step t tm0 n c c' :
  t <> "" -> is_Some (tm0 !! t) ->
  race_inv t tm0 n c -> step c c' -> race_inv t tm0 n c'.
Proof.
  intros Hne Hin (Hlen & Hall & Hcase) Hstep.
  destruct Hstep as [tm cs i t' Hi]. simpl in *.
  assert (t' = t) as ->.
  { eapply Forall_lookup_1 in Hall; [|exact Hi].
    destruct Hall as [?|[r ?]]; congruence. }
  rewrite ValidateAndConsumeToken_nonempty by done. unfold race_inv. simpl.
  split; [by rewrite length_insert|]. split.
  { apply Forall_insert; [done|]. right. eauto. }
  right. destruct Hcase as [[-> ->]|[-> Hone]].
  - split; [done|]. rewrite (results_insert_pending _ _ _ _ t) by done.
    rewrite results_replicate_pending. by rewrite bool_decide_eq_true_2.
  - split; [by rewrite delete_delete_eq|].
    rewrite (results_insert_pending _ _ _ _ t) by done.
    rewrite lookup_delete_eq. rewrite bool_decide_eq_false_2; [simpl; lia|].
    by intros [? ?].
Qed.

Lemma race_inv_rtc t tm0 n c c' :
  t <> "" -> is_Some (tm0 !! t) ->
  race_inv t tm0 n c -> rtc step c c' -> race_inv t tm0 n c'.
Proof.
  intros Hne Hin Hinv Hsteps. induction Hsteps; [done|].
  eauto using race_inv_step.
Qed.

(** [run] follows the step relation. *)
Lemma run_rtc schedule c : rtc step c (run schedule c).
Proof.
  revert c. induction schedule as [|i rest IH]; intros [tm cs]; simpl; [done|].
  destruct (cs !! i) as [[t|r]|] eqn:Hi; try apply IH.
  eapply rtc_l; [|apply IH]. by constructor.
Qed.

(** Running the callers [k, k+1, ..., k+n-1] of a list whose callers before
    [k] have returned leaves every caller returned. *)
Lemma run_seq_finished n : forall k tm cs,
  length cs = k + n ->
  forallb has_returned (take k cs) = true ->
  finished (run (seq k n) (tm, cs)).2.
Proof.
  induction n as [|n IH]; intros k tm cs Hlen Hdone; simpl.
  - unfold finished. rewrite <- (take_ge cs k) by lia. done.
  - destruct (cs !! k) as [[t|r]|] eqn:Hk.
    + apply IH.
      * rewrite length_insert. lia.
      * rewrite (take_S_r _ _ (Returned (ValidateAndConsumeToken t tm).1))
          by (apply list_lookup_insert_eq; lia).
        rewrite take_insert_ge by lia. by rewrite forallb_app, Hdone.
    + apply IH; [lia|].
      rewrite (take_S_r _ _ (Returned r)) by done. by rewrite forallb_app, Hdone.
    + apply lookup_ge_None in Hk. lia.
Qed.

(** Whatever has happened so far, the callers still pending can be run to
    completion. *)
Lemma run_completes (c : config) :
  exists c', rtc step c c' /\ finished c'.2.
Proof.
  destruct c as [tm cs]. exists (run (seq 0 (length cs)) (tm, cs)).
  split; [apply run_rtc|]. by apply run_seq_finished.
Qed.

End TokenManagerFacts.

(** C1. For every store and every identifier [t], [ValidateAndConsumeToken t]
    returns true exactly when [t] is non-empty and present in the store; when
    it returns true the entry of [t] has been removed from the store; and a
    second call with the same identifier returns false. *)
Theorem validate_and_consume_exactly_once
    (tm : gmap string TokenManager.AuctionToken) (t : string) :
  let r := (TokenManager.ValidateAndConsumeToken t tm).1 in
  let tm' := (TokenManager.ValidateAndConsumeToken t tm).2 in
  (r = true <-> (t <> "" /\ is_Some (tm !! t))) /\
  (r = true -> tm' !! t = None /\ tm' = delete t tm) /\
  (r = true -> (TokenManager.ValidateAndConsumeToken t tm').1 = false).
Proof.
  destruct (decide (t = "")) as [->|Hne]; cbv zeta.
  - rewrite ValidateAndConsumeToken_empty. simpl.
    split; [|split]; try discriminate. split; [discriminate|]. by intros [? _].
  - rewrite !ValidateAndConsumeToken_nonempty by done. simpl.
    rewrite bool_decide_eq_true. split; [tauto|]. split.
    + intros _. by rewrite lookup_delete_eq.
    + intros _. rewrite lookup_delete_eq. apply bool_decide_eq_false_2.
      by intros [? ?].
Qed.

(** C10. [ValidateAndConsumeToken] called with the empty identifier returns
    false and leaves the store unchanged, whatever the store holds: an entry
    under the empty string, were one present, stays in place. *)
Theorem validate_and_consume_empty_identifier
    (tm : gmap string TokenManager.AuctionToken) :
  (TokenManager.ValidateAndConsumeToken "" tm).1 = false /\
  (TokenManager.ValidateAndConsumeToken "" tm).2 = tm /\
  (TokenManager.ValidateAndConsumeToken "" tm).2 !! "" = tm !! "" /\
  TokenManager.Count (TokenManager.ValidateAndConsumeToken "" tm).2 = TokenManager.Count tm.
Proof. rewrite ValidateAndConsumeToken_empty. simpl. auto. Qed.

(** C2. [N] callers, [N >= 1], race on [ValidateAndConsumeToken] with one
    identifier [t] that the store holds (the store holding issued tokens
    only). Whatever the interleaving so far, the callers still pending can
    be run to completion; and in every interleaving, once all callers have
    returned, exactly one has returned true, [N - 1] have returned false, the
    entry of [t] is gone and [Count] has dropped by exactly one. *)
Theorem concurrent_same_token_single_winner
    (tm : gmap string TokenManager.AuctionToken) (t : string) (N : nat) :
  0 < N ->
  TokenManager.issued_only tm ->
  is_Some (tm !! t) ->
  let start : TokenManager.config := (tm, replicate N (TokenManager.Pending t)) in
  (forall c, rtc TokenManager.step start c ->
     exists c', rtc TokenManager.step c c' /\ TokenManager.finished c'.2) /\
  (forall c, rtc TokenManager.step start c -> TokenManager.finished c.2 ->
     TokenManager.results true c.2 = 1 /\
     TokenManager.results false c.2 = N - 1 /\
     c.1 = delete t tm /\
     TokenManager.Count tm = TokenManager.Count c.1 + 1).
Proof.
  intros HN Hissued Hin start.
  assert (t <> "") as Hne.
  { intros ->. destruct Hin as [? Hin]. unfold TokenManager.issued_only in *. congruence. }
  split.
  - intros c _. apply run_completes.
  - intros c Hsteps Hfin.
    pose proof (race_inv_rtc t tm N start c Hne Hin (race_inv_init t tm N) Hsteps)
      as (Hlen & _ & Hcase).
    destruct Hcase as [[_ Hcs]|[Hst Hone]].
    + exfalso. rewrite Hcs in Hfin. destruct N; [lia|].
      by eapply finished_replicate_pending.
    + pose proof (results_total _ Hfin) as Htot.
      split; [done|]. split; [lia|]. split; [done|].
      rewrite Hst, (Count_size tm), (Count_size (delete t tm)). destruct Hin as [x Hx].
      rewrite (map_size_delete_Some t tm) by eauto.
      assert (size tm <> 0); [|lia].
      intros H0. apply map_size_empty_inv in H0. subst tm. by rewrite lookup_empty in Hx.
Qed.

(** The test [ConcurrentSameToken]: one issued token and 100 callers. *)
Lemma concurrent_same_token_single_winner_witness :
  let tm := (TokenManager.GenerateToken "6ba7b810-9dad-11d1-80b4-00c04fd430c8" 0
               TokenManager.NewTokenManager).2 in
  let start : TokenManager.config :=
    (tm, replicate 100 (TokenManager.Pending "6ba7b810-9dad-11d1-80b4-00c04fd430c8")) in
  (forall c, rtc TokenManager.step start c ->
     exists c', rtc TokenManager.step c c' /\ TokenManager.finished c'.2) /\
  (forall c, rtc TokenManager.step start c -> TokenManager.finished c.2 ->
     TokenManager.results true c.2 = 1 /\
     TokenManager.results false c.2 = 100 - 1 /\
     c.1 = delete "6ba7b810-9dad-11d1-80b4-00c04fd430c8" tm /\
     TokenManager.Count tm = TokenManager.Count c.1 + 1).
Proof.
  apply (concurrent_same_token_single_winner
           (TokenManager.GenerateToken "6ba7b810-9dad-11d1-80b4-00c04fd430c8" 0
              TokenManager.NewTokenManager).2
           "6ba7b810-9dad-11d1-80b4-00c04fd430c8" 100).
  - lia.
  - reflexivity.
  - eexists. reflexivity.
Defined.

(** ** Comparison of float64 values *)

Section Float64Order.
Import Core.
Implicit Types x y z : spec_float.

Lemma SFcompare_finite_same_sign (s : bool) m1 e1 m2 e2 :
  SFcompare (S754_finite s m1 e1) (S754_finite s m2 e2) =
  Some (let c := match (e1 ?= e2)%Z with
                 | Eq => (m1 ?= m2)%positive
                 | c => c
                 end in
        if s then CompOpp c else c).
Proof.
  simpl. change (Pos.compare_cont Eq m1 m2) with (m1 ?= m2)%positive.
  destruct s, (e1 ?= e2)%Z; reflexivity.
Qed.

Ltac float_order :=
  intros;
  repeat match goal with
    | x : spec_float |- _ => destruct x as [[]|[]| |[] ? ?]
    end;
  unfold float64_gt, float64_ge, SFltb, SFleb, is_NaN in *;
  rewrite ?SFcompare_finite_same_sign in *;
  simpl in *; try done;
  repeat match goal with
    | H : context [(?a ?= ?b)%Z] |- _ => destruct (Z.compare_spec a b)
    | |- context [(?a ?= ?b)%Z] => destruct (Z.compare_spec a b)
    | H : context [(?a ?= ?b)%positive] |- _ => destruct (Pos.compare_spec a b)
    | |- context [(?a ?= ?b)%positive] => destruct (Pos.compare_spec a b)
    end;
  simpl in *; try done; try lia.

Lemma float64_gt_irrefl x : float64_gt x x = false.
Proof. float_order. Qed.

Lemma float64_gt_trans x y z :
  float64_gt x y = true -> float64_gt y z = true -> float64_gt x z = true.
Proof. float_order. Qed.

Lemma float64_gt_asym x y : float64_gt x y = true -> float64_gt y x = false.
Proof. float_order. Qed.

Lemma float64_gt_ge x y : float64_gt x y = true -> float64_ge x y = true.
Proof. float_order. Qed.

Lemma float64_not_gt_ge x y :
  is_NaN x = false -> is_NaN y = false ->
  float64_gt x y = false -> float64_ge y x = true.
Proof. float_order. Qed.

Lemma float64_ge_not_gt x y : float64_ge y x = true -> float64_gt x y = false.
Proof. float_order. Qed.

Lemma float64_ge_gt_trans x y z :
  float64_ge x y = true -> float64_gt y z = true -> float64_gt x z = true.
Proof. float_order. Qed.

Lemma float64_gt_ge_trans x y z :
  float64_gt x y = true -> float64_ge y z = true -> float64_gt x z = true.
Proof. float_order. Qed.

Lemma float64_ge_trans x y z :
  float64_ge x y = true -> float64_ge y z = true -> float64_ge x z = true.
Proof. float_order. Qed.

Lemma float64_not_gt_trans x y z :
  is_NaN y = false ->
  float64_gt x y = false -> float64_gt y z = false -> float64_gt x z = false.
Proof. float_order. Qed.

Lemma float64_not_ge_gt x y :
  is_NaN x = false -> is_NaN y = false ->
  float64_ge x y = false -> float64_gt y x = true.
Proof. float_order. Qed.

Lemma float64_ge_NaN_l x y : float64_ge x y = true -> is_NaN x = false.
Proof. float_order. Qed.

Lemma float64_ge_NaN_r x y : float64_ge x y = true -> is_NaN y = false.
Proof. float_order. Qed.

End Float64Order.

(** ** The grouping loop of RankCoreBids *)

Section Grouping.
Import Core.
Implicit Types (m : gmap string BidRef) (bids pre rest : list CoreBid).

Lemma grouped_nil : grouped [] ∅.
Proof. split; intros ? ?; [rewrite lookup_empty|rewrite lookup_nil]; done. Qed.

Lemma float64_ge_false_gt x y : float64_ge x y = false -> float64_gt x y = false.
Proof.
  intros H. destruct (float64_gt x y) eqn:E; [|done].
  apply float64_gt_ge in E. congruence.
Qed.

Lemma lookup_snoc_inv {A} (l : list A) (x y : A) j :
  (l ++ [x]) !! j = Some y -> l !! j = Some y \/ (j = length l /\ y = x).
Proof.
  intros H. apply lookup_app_Some in H as [H|[Hge H]]; [by left|right].
  destruct (j - length l) as [|n] eqn:E; simpl in H; [|by rewrite lookup_nil in H].
  split; [lia|congruence].
Qed.

Lemma group_bids_cons pre c rest m :
  group_bids (length pre) (c :: rest) m =
  group_bids (length (pre ++ [c])) rest (visit pre c m).
Proof. rewrite length_app. simpl. by replace (length pre + 1) with (S (length pre)) by lia. Qed.

Lemma grouped_insert pre c m :
  grouped pre m ->
  (forall j c0, pre !! j = Some c0 -> Bidder c0 = Bidder c ->
     float64_ge (Price c0) (Price c) = false) ->
  grouped (pre ++ [c]) (<[Bidder c := mkBidRef (length pre) c]> m).
Proof.
  intros [G1 G2] Hlow. split.
  - intros b r Hr. apply lookup_insert_Some in Hr as [[<- <-]|[Hne Hr]]; simpl.
    + split; [|done]. by rewrite lookup_app_r, Nat.sub_diag by lia.
    + destruct (G1 b r Hr) as [Hl Hb]. split; [|done]. by apply lookup_app_l_Some.
  - intros j c0 Hj. apply lookup_snoc_inv in Hj as [Hj|[-> ->]].
    + destruct (decide (Bidder c0 = Bidder c)) as [Heq|Hne].
      * exists (mkBidRef (length pre) c). rewrite Heq, lookup_insert_eq. simpl.
        pose proof (Hlow j c0 Hj Heq) as Hlt.
        split; [done|]. split; [by apply float64_ge_false_gt|done].
      * destruct (G2 j c0 Hj) as (r & Hr & Hgt & Hge).
        exists r. by rewrite lookup_insert_ne.
    + exists (mkBidRef (length pre) c). rewrite lookup_insert_eq. simpl.
      split; [done|]. split; [apply float64_gt_irrefl|lia].
Qed.

Lemma grouped_visit pre c m : grouped pre m -> grouped (pre ++ [c]) (visit pre c m).
Proof.
  intros G. pose proof G as [G1 G2]. unfold visit.
  destruct (m !! Bidder c) as [r0|] eqn:Hm.
  - destruct (float64_gt (Price c) (Price (deref r0))) eqn:Hgt.
    + apply grouped_insert; [done|]. intros j c0 Hj Heq.
      destruct (G2 j c0 Hj) as (r & Hr & Hngt & _).
      rewrite Heq, Hm in Hr. injection Hr as <-.
      destruct (float64_ge (Price c0) (Price c)) eqn:Hge; [|done].
      assert (float64_gt (Price c0) (Price (deref r0)) = true); [|congruence].
      apply (float64_ge_gt_trans _ (Price c)); done.
    + split.
      * intros b r Hr. destruct (G1 b r Hr) as [Hl Hb].
        split; [|done]. by apply lookup_app_l_Some.
      * intros j c0 Hj. apply lookup_snoc_inv in Hj as [Hj|[-> ->]]; [by apply G2|].
        exists r0. split; [done|]. split; [done|].
        destruct (G1 _ _ Hm) as [Hl _]. apply lookup_lt_Some in Hl. lia.
  - apply grouped_insert; [done|]. intros j c0 Hj Heq.
    destruct (G2 j c0 Hj) as (r & Hr & _). congruence.
Qed.

Lemma group_bids_grouped rest : forall pre m,
  grouped pre m -> grouped (pre ++ rest) (group_bids (length pre) rest m).
Proof.
  induction rest as [|c rest IH]; intros pre m G; simpl.
  - by rewrite app_nil_r.
  - change (group_bids (S (length pre)) rest ?m') with
      (group_bids (length pre) (c :: rest) m).
    rewrite group_bids_cons. rewrite (cons_middle c pre rest), app_assoc.
    apply IH. by apply grouped_visit.
Qed.

Lemma group_bids_all bids : grouped bids (group_bids 0 bids ∅).
Proof. apply (group_bids_grouped bids [] ∅ grouped_nil). Qed.

(** The keys of the map are the bidders of the input. *)
Lemma group_bids_dom bids :
  dom (group_bids 0 bids ∅) = list_to_set (Bidder <$> bids).
Proof.
  destruct (group_bids_all bids) as [G1 G2]. apply set_eq. intros b.
  rewrite elem_of_dom, elem_of_list_to_set, list_elem_of_fmap. split.
  - intros [r Hr]. destruct (G1 b r Hr) as [Hl Hb].
    exists (deref r). split; [done|]. by eapply list_elem_of_lookup_2.
  - intros (c & -> & Hc). apply list_elem_of_lookup_1 in Hc as [j Hj].
    destruct (G2 j c Hj) as (r & Hr & _). eauto.
Qed.

End Grouping.

(** ** The rank assignment loop and the shape of the result *)

Section Ranking.
Import Core.
Implicit Types (es : list BidEntry) (res : CoreRankingResult).

Lemma result_eta res :
  res = mkCoreRankingResult (Ranks res) (HighestBids res) (SortedBidders res).
Proof. by destruct res. Qed.

Lemma assign_ranks_Ranks es : forall k res,
  NoDup (bidder <$> es) ->
  Ranks (assign_ranks k es res) =
  list_to_map (zip (bidder <$> es) (seq (k + 1) (length es))) ∪ Ranks res.
Proof.
  induction es as [|e es IH]; intros k res Hnd; simpl.
  - by rewrite (left_id ∅ (∪)).
  - apply NoDup_cons in Hnd as [Hne Hnd]. rewrite IH by done. simpl.
    replace (S k + 1) with (S (k + 1)) by lia.
    rewrite <- insert_union_r, insert_union_l; [done|].
    apply not_elem_of_list_to_map_1. rewrite fst_zip; [done|].
    by rewrite length_fmap, length_seq.
Qed.

Lemma assign_ranks_HighestBids es : forall k res,
  NoDup (bidder <$> es) ->
  HighestBids (assign_ranks k es res) =
  list_to_map (entry_pair <$> es) ∪ HighestBids res.
Proof.
  induction es as [|e es IH]; intros k res Hnd; simpl.
  - by rewrite (left_id ∅ (∪)).
  - apply NoDup_cons in Hnd as [Hne Hnd]. rewrite IH by done. simpl.
    rewrite <- insert_union_r, insert_union_l; [done|].
    apply not_elem_of_list_to_map_1. by rewrite <- list_fmap_compose.
Qed.

Lemma assign_ranks_SortedBidders es : forall k res,
  k + length es <= length (SortedBidders res) ->
  SortedBidders (assign_ranks k es res) =
  take k (SortedBidders res) ++ (bidder <$> es)
    ++ drop (k + length es) (SortedBidders res).
Proof.
  induction es as [|e es IH]; intros k res Hlen; simpl in *.
  - by rewrite Nat.add_0_r, take_drop.
  - rewrite IH; simpl; [|rewrite length_insert; lia].
    rewrite (take_S_r _ _ (bidder e)) by (apply list_lookup_insert_eq; lia).
    rewrite take_insert_ge by lia. rewrite drop_insert_lt by lia.
    rewrite <- app_assoc. simpl.
    by replace (k + S (length es)) with (S (k + length es)) by lia.
Qed.

Lemma entry_pair_mkBidEntry (l : list (string * BidRef)) :
  entry_pair <$> ((fun p : string * BidRef => mkBidEntry p.1 p.2) <$> l) = l.
Proof. induction l as [|[? ?] l IH]; [done|]. csimpl. by rewrite IH. Qed.

Context {rt : GoRuntime} {Hlaws : GoRuntimeLaws rt}.

Lemma sorted_entries_perm_entries bids :
  sorted_entries bids ≡ₚ
  (fun p : string * BidRef => mkBidEntry p.1 p.2) <$> map_to_list (group_bids 0 bids ∅).
Proof. unfold sorted_entries. by rewrite sort_Slice_perm, map_range_perm. Qed.

Lemma sorted_entries_perm bids :
  entry_pair <$> sorted_entries bids ≡ₚ map_to_list (group_bids 0 bids ∅).
Proof. by rewrite sorted_entries_perm_entries, entry_pair_mkBidEntry. Qed.

Lemma sorted_entries_elem bids e :
  e ∈ sorted_entries bids <-> group_bids 0 bids ∅ !! bidder e = Some (bid e).
Proof.
  rewrite sorted_entries_perm_entries, list_elem_of_fmap. split.
  - intros ([b r] & -> & Hp). by apply elem_of_map_to_list in Hp.
  - intros H. exists (bidder e, bid e). split; [by destruct e|].
    by apply elem_of_map_to_list.
Qed.

Lemma sorted_entries_NoDup bids : NoDup (bidder <$> sorted_entries bids).
Proof.
  replace (bidder <$> sorted_entries bids) with ((entry_pair <$> sorted_entries bids).*1)
    by (by rewrite <- list_fmap_compose).
  rewrite sorted_entries_perm. apply NoDup_fst_map_to_list.
Qed.

Lemma sorted_entries_length bids :
  length (sorted_entries bids) = distinct_bidders bids.
Proof.
  rewrite <- (length_fmap entry_pair), sorted_entries_perm, length_map_to_list.
  rewrite <- (size_dom (D:=gset string)), group_bids_dom. unfold distinct_bidders.
  rewrite <- (size_list_to_set (C:=gset string)) by apply NoDup_remove_dups.
  f_equal. apply set_eq. intros b.
  by rewrite !elem_of_list_to_set, elem_of_remove_dups.
Qed.

Lemma sorted_entries_nil : sorted_entries [] = [].
Proof.
  apply Permutation_nil_r. unfold sorted_entries. rewrite sort_Slice_perm. simpl.
  pose proof (map_range_perm (∅ : gmap string BidRef)) as H.
  rewrite map_to_list_empty in H. apply Permutation_nil_r in H. by rewrite H.
Qed.

(** The result of [RankCoreBids], read off the sorted entries. *)
Lemma RankCoreBids_result bids :
  RankCoreBids bids =
  {| Ranks := list_to_map (zip (bidder <$> sorted_entries bids)
                               (seq 1 (length (sorted_entries bids))));
     HighestBids := group_bids 0 bids ∅;
     SortedBidders := bidder <$> sorted_entries bids |}.
Proof.
  destruct bids as [|c bids].
  { rewrite sorted_entries_nil. reflexivity. }
  unfold RankCoreBids. fold (sorted_entries (c :: bids)).
  pose proof (sorted_entries_NoDup (c :: bids)) as Hnd.
  pose proof (sorted_entries_perm (c :: bids)) as Hperm.
  set (es := sorted_entries (c :: bids)) in *.
  rewrite (result_eta (assign_ranks _ _ _)). f_equal.
  - rewrite assign_ranks_Ranks by done. simpl. by rewrite (right_id ∅ (∪)).
  - rewrite assign_ranks_HighestBids by done. simpl. rewrite (right_id ∅ (∪)).
    rewrite <- (list_to_map_to_list (group_bids _ _ _)).
    apply list_to_map_proper; [|done]. by rewrite <- list_fmap_compose.
  - rewrite assign_ranks_SortedBidders; simpl; [|by rewrite length_replicate].
    rewrite drop_ge by (by rewrite length_replicate). apply app_nil_r.
Qed.

End Ranking.

(** ** Go's insertion sort meets the contract of sort.Slice *)

Section InsertionSort.
Import Core.
Context {A : Type} (less : A -> A -> bool).
Implicit Types (l acc : list A).

Lemma sift_down_perm x acc : sift_down less x acc ≡ₚ x :: acc.
Proof.
  induction acc as [|y acc IH]; simpl; [done|].
  destruct (less x y); [|done]. rewrite IH. apply Permutation_swap.
Qed.

Lemma fold_sift_down_perm l : forall acc,
  fold_left (fun prefix_rev x => sift_down less x prefix_rev) l acc ≡ₚ l ++ acc.
Proof.
  induction l as [|x l IH]; intros acc; simpl; [done|].
  rewrite IH, sift_down_perm. by rewrite Permutation_middle.
Qed.

Lemma insertionSort_perm l : insertionSort less l ≡ₚ l.
Proof.
  unfold insertionSort. rewrite reverse_Permutation, fold_sift_down_perm.
  by rewrite app_nil_r.
Qed.

Lemma StronglySorted_reverse (R : relation A) l :
  StronglySorted R l -> StronglySorted (flip R) (reverse l).
Proof.
  induction 1 as [|x l Hl IH Hx]; [constructor|].
  rewrite reverse_cons. apply StronglySorted_app.
  split; [|split; [done|repeat constructor]].
  intros x1 x2 Hx1 Hx2. apply list_elem_of_singleton in Hx2 as ->.
  rewrite elem_of_reverse in Hx1. rewrite Forall_forall in Hx. unfold flip. auto.
Qed.

Lemma sift_down_sorted (dom : list A) x acc :
  strict_weak_on less dom -> x ∈ dom -> (forall y, y ∈ acc -> y ∈ dom) ->
  prefix_sorted less acc -> prefix_sorted less (sift_down less x acc).
Proof.
  intros (Hirr & Htr & Hneg) Hx Hsub. unfold prefix_sorted.
  induction acc as [|y acc IH]; intros Hs; simpl; [repeat constructor|].
  apply StronglySorted_cons in Hs as [Hy Hs]. rewrite Forall_forall in Hy.
  assert (y ∈ dom) as Hyd by (apply Hsub; left).
  destruct (less x y) eqn:Hxy.
  - constructor; [apply IH; [|done]; intros z Hz; apply Hsub; by right|].
    apply Forall_forall. intros z Hz. rewrite sift_down_perm in Hz.
    apply elem_of_cons in Hz as [->|Hz]; [|by apply Hy].
    destruct (less y x) eqn:Hyx; [|done].
    rewrite <- (Hirr x Hx). symmetry. by apply (Htr x y x).
  - constructor; [by constructor; [|apply Forall_forall]|].
    apply Forall_forall. intros z Hz.
    apply elem_of_cons in Hz as [->|Hz]; [done|].
    apply (Hneg x y z); auto. apply Hsub. by right.
Qed.

Lemma fold_sift_down_sorted (dom : list A) l : forall acc,
  strict_weak_on less dom -> (forall y, y ∈ l -> y ∈ dom) ->
  (forall y, y ∈ acc -> y ∈ dom) -> prefix_sorted less acc ->
  prefix_sorted less (fold_left (fun prefix_rev x => sift_down less x prefix_rev) l acc).
Proof.
  induction l as [|x l IH]; intros acc Hswo Hl Hacc Hs; simpl; [done|].
  apply IH; [done| | |].
  - intros y Hy. apply Hl. by right.
  - intros y Hy. rewrite sift_down_perm in Hy.
    apply elem_of_cons in Hy as [->|Hy]; [apply Hl; left|by apply Hacc].
  - eapply sift_down_sorted; eauto. apply Hl. left.
Qed.

Lemma insertionSort_sorted l :
  strict_weak_on less l ->
  StronglySorted (fun x y => less y x = false) (insertionSort less l).
Proof.
  intros Hswo. unfold insertionSort.
  apply (StronglySorted_reverse (fun x y => less x y = false)).
  apply (fold_sift_down_sorted l); [done|done| |constructor].
  intros y Hy. by apply elem_of_nil in Hy.
Qed.

End InsertionSort.

Section Runtimes.
Import Core.

Lemma runtime_forward_laws : GoRuntimeLaws runtime_forward.
Proof.
  split; simpl.
  - done.
  - intros. apply insertionSort_perm.
  - intros. by apply insertionSort_sorted.
Qed.

Lemma runtime_backward_laws : GoRuntimeLaws runtime_backward.
Proof.
  split; simpl.
  - intros. apply reverse_Permutation.
  - intros. apply insertionSort_perm.
  - intros. by apply insertionSort_sorted.
Qed.

End Runtimes.

(** ** Order of the sorted entries *)

Section SortedEntries.
Import Core.
Context {rt : GoRuntime} {Hlaws : GoRuntimeLaws rt}.
Implicit Types (bids : list CoreBid) (e : BidEntry).

Lemma StronglySorted_lookup {A} (R : relation A) (l : list A) : forall i j x y,
  StronglySorted R l -> i < j -> l !! i = Some x -> l !! j = Some y -> R x y.
Proof.
  induction l as [|a l IH]; intros i j x y Hs Hij Hi Hj; [by rewrite lookup_nil in Hi|].
  apply StronglySorted_cons in Hs as [Ha Hs]. destruct j as [|j]; [lia|].
  destruct i as [|i]; simpl in *.
  - injection Hi as ->. rewrite Forall_forall in Ha. apply Ha.
    by eapply list_elem_of_lookup_2.
  - apply (IH i j); auto. lia.
Qed.

Lemma less_entry_strict_weak (l : list BidEntry) :
  (forall e, e ∈ l -> is_NaN (Price (deref (bid e))) = false) ->
  strict_weak_on less_entry l.
Proof.
  intros Hnan. unfold less_entry. split; [|split].
  - intros x _. apply float64_gt_irrefl.
  - intros x y z _ _ _. apply float64_gt_trans.
  - intros x y z _ Hy _. apply float64_not_gt_trans. by apply Hnan.
Qed.

Lemma less_entry_strict_weak_no_ties (m : gmap string BidRef) (l : list BidEntry) :
  no_price_ties m ->
  (forall e, e ∈ l -> m !! bidder e = Some (bid e)) ->
  strict_weak_on less_entry l.
Proof.
  intros Hties Hm. unfold less_entry. split; [|split].
  - intros x _. apply float64_gt_irrefl.
  - intros x y z _ _ _. apply float64_gt_trans.
  - intros x y z Hx Hy Hz Hxy Hyz.
    pose proof (Hm x Hx) as Hmx. pose proof (Hm y Hy) as Hmy. pose proof (Hm z Hz) as Hmz.
    destruct (decide (bidder x = bidder y)) as [Exy|Nxy].
    { rewrite Exy in Hmx. by replace (bid x) with (bid y) by congruence. }
    destruct (decide (bidder y = bidder z)) as [Eyz|Nyz].
    { rewrite Eyz in Hmy. by replace (bid z) with (bid y) by congruence. }
    destruct (Hties _ _ _ _ Nxy Hmx Hmy) as [H|Hyx]; [congruence|].
    destruct (Hties _ _ _ _ Nyz Hmy Hmz) as [H|Hzy]; [congruence|].
    apply float64_gt_asym. by apply (float64_gt_trans _ (Price (deref (bid y)))).
Qed.

Lemma unsorted_entries_elem bids e :
  e ∈ (fun p : string * BidRef => mkBidEntry p.1 p.2) <$> map_range (group_bids 0 bids ∅) ->
  e ∈ sorted_entries bids.
Proof. unfold sorted_entries. by rewrite sort_Slice_perm. Qed.

Lemma retained_in_bids bids b r :
  group_bids 0 bids ∅ !! b = Some r -> deref r ∈ bids /\ Bidder (deref r) = b.
Proof.
  intros Hr. destruct (group_bids_all bids) as [G1 _].
  destruct (G1 b r Hr) as [Hl Hb]. split; [|done]. by eapply list_elem_of_lookup_2.
Qed.

Lemma sorted_entries_no_NaN bids e :
  no_NaN_price bids -> e ∈ sorted_entries bids ->
  is_NaN (Price (deref (bid e))) = false.
Proof.
  intros Hnan He. apply sorted_entries_elem in He.
  apply retained_in_bids in He as [He _].
  unfold no_NaN_price in Hnan. rewrite Forall_forall in Hnan. by apply Hnan.
Qed.

Lemma sorted_entries_sorted bids :
  no_NaN_price bids ->
  StronglySorted (fun x y => less_entry y x = false) (sorted_entries bids).
Proof.
  intros Hnan. apply sort_Slice_sorted, less_entry_strict_weak.
  intros e He. apply (sorted_entries_no_NaN bids); [done|].
  by apply unsorted_entries_elem.
Qed.

Lemma sorted_entries_sorted_no_ties bids :
  no_price_ties (group_bids 0 bids ∅) ->
  StronglySorted (fun x y => less_entry y x = false) (sorted_entries bids).
Proof.
  intros Hties. apply sort_Slice_sorted.
  apply (less_entry_strict_weak_no_ties (group_bids 0 bids ∅)); [done|].
  intros e He. by apply sorted_entries_elem, unsorted_entries_elem.
Qed.

Lemma ranks_zip_NoDup bids :
  NoDup (zip (bidder <$> sorted_entries bids)
             (seq 1 (length (sorted_entries bids)))).*1.
Proof.
  rewrite fst_zip by (by rewrite length_fmap, length_seq).
  apply sorted_entries_NoDup.
Qed.

Lemma RankCoreBids_consistent bids :
  ranking_consistent (RankCoreBids bids) (distinct_bidders bids).
Proof.
  rewrite RankCoreBids_result. unfold ranking_consistent. simpl.
  pose proof (sorted_entries_length bids) as Hlen.
  pose proof (ranks_zip_NoDup bids) as Hnd.
  set (es := sorted_entries bids) in *.
  repeat split.
  - rewrite map_size_list_to_map by done.
    by rewrite length_zip, length_fmap, length_seq, Nat.min_id.
  - rewrite <- length_map_to_list, <- sorted_entries_perm. by rewrite length_fmap.
  - by rewrite length_fmap.
  - rewrite map_to_list_to_map by done. rewrite snd_zip; [by rewrite Hlen|].
    by rewrite length_fmap, length_seq.
  - apply sorted_entries_NoDup.
  - intros b i Hi. apply elem_of_list_to_map; [done|].
    apply (list_elem_of_lookup_2 _ i), lookup_zip_Some. split; [done|].
    apply lookup_seq. split; [done|].
    apply lookup_lt_Some in Hi. by rewrite length_fmap in Hi.
  - intros b k Hk. apply elem_of_list_to_map in Hk; [|done].
    apply list_elem_of_lookup_1 in Hk as [i Hi].
    apply lookup_zip_Some in Hi as [Hb Hs]. apply lookup_seq in Hs as [-> _].
    by exists i.
Qed.

Lemma RankCoreBids_descending bids :
  no_NaN_price bids -> descending_prices (RankCoreBids bids).
Proof.
  intros Hnan. rewrite RankCoreBids_result. unfold descending_prices. simpl.
  intros i b1 b2 H1 H2.
  apply list_lookup_fmap_Some in H1 as (e1 & -> & H1).
  apply list_lookup_fmap_Some in H2 as (e2 & -> & H2).
  pose proof (list_elem_of_lookup_2 _ _ _ H1) as Hin1.
  pose proof (list_elem_of_lookup_2 _ _ _ H2) as Hin2.
  exists (bid e1), (bid e2).
  split; [by apply sorted_entries_elem|]. split; [by apply sorted_entries_elem|].
  apply float64_not_gt_ge; [by eapply sorted_entries_no_NaN..|].
  apply (StronglySorted_lookup _ _ i (S i) e1 e2 (sorted_entries_sorted bids Hnan));
    [lia|done|done].
Qed.

Lemma RankCoreBids_retains bids b :
  b ∈ Bidder <$> bids -> retains_first_highest bids (RankCoreBids bids) b.
Proof.
  intros Hb. rewrite RankCoreBids_result. unfold retains_first_highest. simpl.
  destruct (group_bids_all bids) as [G1 G2].
  apply list_elem_of_fmap in Hb as (c0 & -> & Hc0).
  apply list_elem_of_lookup_1 in Hc0 as [j0 Hj0].
  destruct (G2 j0 c0 Hj0) as (ref & Href & _).
  exists ref. split; [done|]. destruct (G1 _ _ Href) as [Hl Hbid].
  split; [done|]. split; [done|]. intros j c Hj Hc.
  destruct (G2 j c Hj) as (ref' & Href' & Hgt & Hge).
  rewrite Hc, Href in Href'. injection Href' as <-. done.
Qed.

End SortedEntries.

(** ** The ranker *)

(** C3, as amended. For every non-empty list of bids and every run of
    [RankCoreBids]: [Ranks], [HighestBids] and [SortedBidders] each have as
    many entries as the input has distinct bidders; the rank values are a
    permutation of [1..N]; the rank of every bidder is one more than its
    position in [SortedBidders]; and, when no price of the input is NaN,
    successive bidders of [SortedBidders] have non-increasing retained
    prices. *)
Theorem rank_core_bids_consistent_descending
    (rt : Core.GoRuntime) (Hlaws : Core.GoRuntimeLaws rt) (bids : list Core.CoreBid) :
  bids <> [] ->
  Core.ranking_consistent (Core.RankCoreBids bids) (Core.distinct_bidders bids) /\
  (Core.no_NaN_price bids -> Core.descending_prices (Core.RankCoreBids bids)).
Proof.
  intros _. split.
  - apply RankCoreBids_consistent.
  - apply RankCoreBids_descending.
Qed.

(** [TestRankCoreBids_Integration]: three bidders at 2.50, 2.25 and 2.75. *)
Lemma rank_core_bids_consistent_descending_witness :
  Core.ranking_consistent
    (@Core.RankCoreBids Core.runtime_forward Core.integration_bids) 3 /\
  Core.descending_prices (@Core.RankCoreBids Core.runtime_forward Core.integration_bids).
Proof.
  destruct (rank_core_bids_consistent_descending
              Core.runtime_forward runtime_forward_laws Core.integration_bids)
    as [Hcons Hdesc]; [discriminate|].
  split; [exact Hcons|]. apply Hdesc. repeat constructor.
Defined.

(** C3 as stated fails on a NaN price. With [bidder_a] at NaN, [bidder_b] at
    2.50 and [bidder_c] at 2.25, a run in which [range] visits the bidders in
    the order c, a, b leaves them in that order: every comparison with NaN is
    false, so the sort moves nothing. The bidder at 2.25 is ranked first,
    above the bidder at 2.50, and the prices along [SortedBidders] are not
    non-increasing. *)
Lemma rank_core_bids_NaN_not_descending :
  Core.NaN_bids <> [] /\
  Forall (fun c => Core.valid_float64 (Core.Price c) = true) Core.NaN_bids /\
  Core.SortedBidders (@Core.RankCoreBids Core.runtime_forward Core.NaN_bids)
    = ["bidder_c"; "bidder_a"; "bidder_b"] /\
  Core.float64_gt Core.price_2_50 Core.price_2_25 = true /\
  ~ (Core.ranking_consistent
       (@Core.RankCoreBids Core.runtime_forward Core.NaN_bids)
       (Core.distinct_bidders Core.NaN_bids) /\
     Core.descending_prices (@Core.RankCoreBids Core.runtime_forward Core.NaN_bids)).
Proof.
  split; [discriminate|]. split; [repeat constructor|].
  split; [by vm_compute|]. split; [reflexivity|].
  intros [_ Hdesc].
  destruct (Hdesc 0 "bidder_c" "bidder_a") as (r1 & r2 & H1 & H2 & Hge);
    [by vm_compute..|].
  vm_compute in H1. vm_compute in H2.
  injection H1 as <-. injection H2 as <-. discriminate Hge.
Qed.

(** C4, as amended. For every list of bids and every bidder [b] appearing in
    it, none of whose bids has a NaN price, in every run: [HighestBids[b]]
    points at a bid of [b] in the input whose price is at least the price of
    every bid of [b] (it has the maximal price among the bids of [b]) and
    strictly above the price of every earlier bid of [b] (of several bids at
    the maximal price, the first in input order is the one retained). *)
Theorem highest_bid_first_maximal
    (rt : Core.GoRuntime) (Hlaws : Core.GoRuntimeLaws rt)
    (bids : list Core.CoreBid) (b : string) :
  b ∈ Core.Bidder <$> bids ->
  (forall c, c ∈ bids -> Core.Bidder c = b -> Core.is_NaN (Core.Price c) = false) ->
  exists ref,
    Core.HighestBids (Core.RankCoreBids bids) !! b = Some ref /\
    bids !! Core.index ref = Some (Core.deref ref) /\
    Core.Bidder (Core.deref ref) = b /\
    (forall j c, bids !! j = Some c -> Core.Bidder c = b ->
       Core.float64_ge (Core.Price (Core.deref ref)) (Core.Price c) = true /\
       (j < Core.index ref ->
        Core.float64_gt (Core.Price (Core.deref ref)) (Core.Price c) = true)) /\
    (forall j c, bids !! j = Some c -> Core.Bidder c = b ->
       Core.float64_ge (Core.Price c) (Core.Price (Core.deref ref)) = true ->
       Core.index ref <= j).
Proof.
  intros Hb Hnan.
  destruct (RankCoreBids_retains bids b Hb) as (ref & Href & Hl & Hbid & Hmax).
  exists ref. split; [done|]. split; [done|]. split; [done|].
  assert (Core.is_NaN (Core.Price (Core.deref ref)) = false) as Hr_ok.
  { apply Hnan; [|done]. by eapply list_elem_of_lookup_2. }
  assert (forall j c, bids !! j = Some c -> Core.Bidder c = b ->
            Core.is_NaN (Core.Price c) = false) as Hc_ok.
  { intros j c Hj Hc. apply Hnan; [|done]. by eapply list_elem_of_lookup_2. }
  split.
  - intros j c Hj Hc. destruct (Hmax j c Hj Hc) as [Hgt Hge]. split.
    + apply float64_not_gt_ge; eauto.
    + intros Hlt. apply float64_not_ge_gt; eauto.
  - intros j c Hj Hc Htie. destruct (Hmax j c Hj Hc) as [_ Hge].
    destruct (decide (Core.index ref <= j)) as [?|Hearlier]; [done|].
    rewrite Hge in Htie by lia. discriminate.
Qed.

(** A bidder with bids at 2.50, 2.75 and 2.75 again: the first of the two
    bids at 2.75, at index 1, is the one retained. *)
Lemma highest_bid_first_maximal_witness :
  ("bidder_a" ∈ Core.Bidder <$> Core.repeated_bids /\
   (forall c, c ∈ Core.repeated_bids -> Core.Bidder c = "bidder_a" ->
      Core.is_NaN (Core.Price c) = false)) /\
  exists ref,
    Core.HighestBids (@Core.RankCoreBids Core.runtime_forward Core.repeated_bids)
      !! "bidder_a" = Some ref /\
    Core.repeated_bids !! Core.index ref = Some (Core.deref ref) /\
    Core.Bidder (Core.deref ref) = "bidder_a" /\
    (forall j c, Core.repeated_bids !! j = Some c -> Core.Bidder c = "bidder_a" ->
       Core.float64_ge (Core.Price (Core.deref ref)) (Core.Price c) = true /\
       (j < Core.index ref ->
        Core.float64_gt (Core.Price (Core.deref ref)) (Core.Price c) = true)) /\
    (forall j c, Core.repeated_bids !! j = Some c -> Core.Bidder c = "bidder_a" ->
       Core.float64_ge (Core.Price c) (Core.Price (Core.deref ref)) = true ->
       Core.index ref <= j).
Proof.
  assert ("bidder_a" ∈ Core.Bidder <$> Core.repeated_bids) as Hb
    by (vm_compute; left).
  assert (forall c, c ∈ Core.repeated_bids -> Core.Bidder c = "bidder_a" ->
            Core.is_NaN (Core.Price c) = false) as Hnan.
  { intros c Hc _. unfold Core.repeated_bids in Hc.
    repeat (apply elem_of_cons in Hc as [->|Hc]); try reflexivity.
    apply elem_of_nil in Hc. destruct Hc. }
  split; [split; assumption|].
  exact (highest_bid_first_maximal Core.runtime_forward runtime_forward_laws
           Core.repeated_bids "bidder_a" Hb Hnan).
Defined.

(** C4 as stated fails on a NaN price. [bidder_a] bids NaN and then 2.50: the
    first bid is stored, and the second does not replace it, since
    [2.50 > NaN] is false. The bid retained for [bidder_a] is the one priced
    NaN, while a bid of [bidder_a] at 2.50 is in the input: the retained
    price is not at least the price of every bid of the bidder. With the two
    bids in the other order the bid at 2.50 is the one retained. *)
Lemma highest_bid_NaN_not_maximal :
  "bidder_a" ∈ Core.Bidder <$> Core.NaN_first_bids /\
  Forall (fun c => Core.valid_float64 (Core.Price c) = true) Core.NaN_first_bids /\
  exists ref,
    Core.HighestBids (@Core.RankCoreBids Core.runtime_forward Core.NaN_first_bids)
      !! "bidder_a" = Some ref /\
    Core.index ref = 0 /\ Core.ID (Core.deref ref) = "bid_a_001" /\
    Core.is_NaN (Core.Price (Core.deref ref)) = true /\
    Core.NaN_first_bids !! 1 = Some (Core.usd_bid "bid_a_002" "bidder_a" Core.price_2_50) /\
    Core.float64_ge (Core.Price (Core.deref ref)) Core.price_2_50 = false /\
    ~ (forall c, c ∈ Core.NaN_first_bids -> Core.Bidder c = "bidder_a" ->
         Core.float64_ge (Core.Price (Core.deref ref)) (Core.Price c) = true) /\
    (Core.Price ∘ Core.deref) <$>
      (Core.HighestBids
         (@Core.RankCoreBids Core.runtime_forward (reverse Core.NaN_first_bids))
         !! "bidder_a") = Some Core.price_2_50.
Proof.
  split; [vm_compute; left|]. split; [repeat constructor|].
  eexists. split; [by vm_compute|].
  split; [reflexivity|]. split; [reflexivity|]. split; [reflexivity|].
  split; [reflexivity|]. split; [reflexivity|]. split; [|by vm_compute].
  intros Hmax.
  specialize (Hmax (Core.usd_bid "bid_a_002" "bidder_a" Core.price_2_50)).
  assert (Core.float64_ge S754_nan Core.price_2_50 = true) as Hge; [|discriminate Hge].
  apply Hmax; [|reflexivity]. unfold Core.NaN_first_bids. right. left.
Qed.

(** C9, as amended. Over all runs of [RankCoreBids] on one input, whatever
    order [range] visits the map in and whatever [sort.Slice] does with
    equal keys: [HighestBids] is always the same, and when no two bidders are
    retained at prices that tie (or fail to compare), the whole result,
    [Ranks] and [SortedBidders] included, is the same. *)
Theorem rank_core_bids_deterministic_without_ties
    (rt1 rt2 : Core.GoRuntime)
    (Hlaws1 : Core.GoRuntimeLaws rt1) (Hlaws2 : Core.GoRuntimeLaws rt2)
    (bids : list Core.CoreBid) :
  Core.HighestBids (@Core.RankCoreBids rt1 bids) =
  Core.HighestBids (@Core.RankCoreBids rt2 bids) /\
  (Core.no_price_ties (Core.HighestBids (@Core.RankCoreBids rt1 bids)) ->
   @Core.RankCoreBids rt1 bids = @Core.RankCoreBids rt2 bids).
Proof.
  rewrite !RankCoreBids_result. simpl. split; [done|]. intros Hties.
  assert (@Core.sorted_entries rt1 bids = @Core.sorted_entries rt2 bids) as ->; [|done].
  apply (StronglySorted_unique_strong (fun x y => Core.less_entry y x = false)).
  - intros x1 x2 Hx1 Hx2 H12 H21.
    apply sorted_entries_elem in Hx1. apply sorted_entries_elem in Hx2.
    destruct (decide (Core.bidder x1 = Core.bidder x2)) as [Heq|Hne].
    + rewrite Heq in Hx1. destruct x1, x2. simpl in *. congruence.
    + unfold Core.less_entry in *.
      destruct (Hties _ _ _ _ Hne Hx1 Hx2); congruence.
  - by apply sorted_entries_sorted_no_ties.
  - by apply sorted_entries_sorted_no_ties.
  - by rewrite !sorted_entries_perm_entries.
Qed.

(** The bids of [TestRankCoreBids_Integration] have three different prices:
    a run that ranges over the map one way and a run that ranges over it the
    other way agree. *)
Lemma rank_core_bids_deterministic_without_ties_witness :
  Core.HighestBids (@Core.RankCoreBids Core.runtime_forward Core.integration_bids) =
  Core.HighestBids (@Core.RankCoreBids Core.runtime_backward Core.integration_bids) /\
  @Core.RankCoreBids Core.runtime_forward Core.integration_bids =
  @Core.RankCoreBids Core.runtime_backward Core.integration_bids.
Proof.
  destruct (rank_core_bids_deterministic_without_ties
              Core.runtime_forward Core.runtime_backward
              runtime_forward_laws runtime_backward_laws Core.integration_bids)
    as [Hsame Hall].
  split; [exact Hsame|]. apply Hall.
  intros b1 b2 r1 r2 Hne H1 H2.
  apply elem_of_map_to_list in H1. apply elem_of_map_to_list in H2.
  set (l := map_to_list _) in *. vm_compute in l. subst l.
  repeat (apply elem_of_cons in H1 as [H1|H1]).
  all: try (apply elem_of_nil in H1; destruct H1).
  all: repeat (apply elem_of_cons in H2 as [H2|H2]).
  all: try (apply elem_of_nil in H2; destruct H2).
  all: injection H1 as -> ->; injection H2 as -> ->.
  all: first [ exfalso; apply Hne; reflexivity
             | left; vm_compute; reflexivity
             | right; vm_compute; reflexivity ].
Defined.

(** C9 as stated fails when two bidders tie. With [bidder_a] and [bidder_b]
    both at 2.50, the sort compares them once, finds neither above the other
    and leaves them as [range] delivered them: a run that visits a first
    ranks [bidder_a] first, a run that visits b first ranks [bidder_b] first.
    Both runs meet what Go guarantees of [range] and [sort.Slice]. *)
Lemma rank_core_bids_tie_depends_on_map_order :
  Core.GoRuntimeLaws Core.runtime_forward /\
  Core.GoRuntimeLaws Core.runtime_backward /\
  Forall (fun c => Core.valid_float64 (Core.Price c) = true) Core.tied_bids /\
  Core.SortedBidders (@Core.RankCoreBids Core.runtime_forward Core.tied_bids)
    = ["bidder_a"; "bidder_b"] /\
  Core.SortedBidders (@Core.RankCoreBids Core.runtime_backward Core.tied_bids)
    = ["bidder_b"; "bidder_a"] /\
  Core.Ranks (@Core.RankCoreBids Core.runtime_forward Core.tied_bids) !! "bidder_a"
    = Some 1 /\
  Core.Ranks (@Core.RankCoreBids Core.runtime_backward Core.tied_bids) !! "bidder_a"
    = Some 2 /\
  @Core.RankCoreBids Core.runtime_forward Core.tied_bids <>
  @Core.RankCoreBids Core.runtime_backward Core.tied_bids.
Proof.
  split; [apply runtime_forward_laws|]. split; [apply runtime_backward_laws|].
  split; [repeat constructor|].
  split; [by vm_compute|]. split; [by vm_compute|].
  split; [by vm_compute|]. split; [by vm_compute|].
  intros Heq. apply (f_equal Core.SortedBidders) in Heq. vm_compute in Heq.
  discriminate Heq.
Qed.

(** ** Hybrid encryption *)

Section HybridFacts.
Import Enclave.
Context {L : GoLibrary} {Hlaws : GoLibraryLaws L}.

Lemma orReturn_Some {E A B} (x : A) (wrapped : E) (k : A -> E + B) :
  orReturn (Some x) wrapped k = k x.
Proof. reflexivity. Qed.

(** Decryption of what [EncryptHybrid] assembles from a key of 32 bytes and
    a nonce of the cipher's size. *)
Lemma DecryptHybrid_assembled priv rand rand' aesKey block aesgcm nonceBytes wrapped plaintext :
  length aesKey = 32 ->
  aes_NewCipher aesKey = Some block ->
  cipher_NewGCM block = Some aesgcm ->
  length nonceBytes = NonceSize aesgcm ->
  rsa_EncryptOAEP rand (PublicKeyOf priv) aesKey = (Some wrapped, rand') ->
  DecryptHybrid (base64_EncodeToString wrapped)
                (base64_EncodeToString (Seal aesgcm nonceBytes plaintext))
                (base64_EncodeToString nonceBytes) priv = inr plaintext.
Proof.
  intros Hkey Hblock Hgcm Hnonce Hwrap. unfold DecryptHybrid.
  rewrite !base64_round_trip, !orReturn_Some.
  rewrite (rsa_oaep_round_trip _ _ _ _ _ Hwrap), orReturn_Some.
  rewrite Hkey. simpl. rewrite Hblock, orReturn_Some, Hgcm, orReturn_Some.
  rewrite Hnonce, Nat.eqb_refl. simpl.
  by rewrite gcm_round_trip.
Qed.

End HybridFacts.


Section StandIn.
Import Enclave.

Lemma stand_in_library_laws : GoLibraryLaws stand_in_library.
Proof.
  split; simpl.
  - intros b. by rewrite String.list_byte_of_string_of_list_byte.
  - intros n r b r' [= <- _]. apply length_replicate.
  - intros r priv msg c r' [= <- _]. simpl. by rewrite Byte.byte_dec_lb.
  - done.
Qed.

End StandIn.


(** ** The decryption and filter stages *)

Section PipelineFacts.
Import Enclave.
Context {L : GoLibrary}.
Implicit Types (km : option KeyManager) (eb : EncryptedCoreBid) (acc : pipeline_state).

Lemma foldl_decryptOne km bids : forall acc,
  foldl (decryptOne km) acc bids =
  (acc.1.1 ++ omap (resolved km) bids,
   acc.1.2 ++ omap (exclusion_of km) bids,
   acc.2 ++ omap (report_of km) bids).
Proof.
  induction bids as [|eb bids IH]; intros [[d e] r]; simpl.
  - by rewrite !app_nil_r.
  - rewrite IH. unfold decryptOne, resolved, exclusion_of, report_of.
    destruct (resolveBid km eb); simpl; by rewrite <- ?app_assoc.
Qed.

Lemma decryptAllBids_omap km bids :
  decryptAllBids bids km =
  (omap (resolved km) bids, omap (exclusion_of km) bids, omap (report_of km) bids).
Proof. unfold decryptAllBids. by rewrite foldl_decryptOne. Qed.

Lemma omap_app_cons {A B} (f : A -> option B) (l1 l2 : list A) (x : A) :
  omap f (l1 ++ x :: l2) = omap f l1 ++ from_option (fun y => [y]) [] (f x) ++ omap f l2.
Proof. rewrite omap_app. simpl. by destruct (f x). Qed.

Lemma omap_cons_length {A B} (f : A -> option B) (x : A) (l : list A) :
  length (omap f (x :: l)) = (if f x is Some _ then 1 else 0) + length (omap f l).
Proof. simpl. by destruct (f x). Qed.

Lemma decryptAllBids_lengths km bids :
  length (omap (resolved km) bids) + length (omap (exclusion_of km) bids) = length bids /\
  length (omap (report_of km) bids) = length (omap (exclusion_of km) bids).
Proof.
  induction bids as [|eb bids [IH1 IH2]]; [done|].
  rewrite !omap_cons_length.
  assert ((if resolved km eb is Some _ then 1 else 0)
            + (if exclusion_of km eb is Some _ then 1 else 0) = 1 /\
          (if report_of km eb is Some _ then 1 else 0)
            = (if exclusion_of km eb is Some _ then 1 else 0))
    as [H1 H2].
  { unfold resolved, exclusion_of, report_of. by destruct (resolveBid km eb). }
  cbn [length]. lia.
Qed.

Lemma foldl_filterOne consumedTokens ds :
  forall st : list Core.CoreBid * list ExcludedBid,
  foldl (filterOne consumedTokens) st ds =
  (st.1 ++ omap (admitted consumedTokens) ds,
   st.2 ++ omap (filtered_out consumedTokens) ds).
Proof.
  induction ds as [|d ds IH]; intros [adm exc]; simpl.
  - by rewrite !app_nil_r.
  - rewrite IH. unfold filterOne, admitted, filtered_out, verdict.
    destruct (negb (valid_price _)); simpl; [by rewrite <- ?app_assoc|].
    destruct (negb _ && _); simpl; by rewrite <- ?app_assoc.
Qed.

Lemma filterBidsByConsumedTokens_omap ds consumedTokens :
  filterBidsByConsumedTokens ds consumedTokens =
  (omap (admitted consumedTokens) ds, omap (filtered_out consumedTokens) ds).
Proof. unfold filterBidsByConsumedTokens. by rewrite foldl_filterOne. Qed.

Lemma admitted_valid_price consumedTokens d b :
  admitted consumedTokens d = Some b -> valid_price (Core.Price b) = true.
Proof.
  unfold admitted, verdict. destruct (valid_price (Core.Price (bid d))) eqn:Hv; simpl.
  - destruct (negb _ && _); [discriminate|]. by intros [= <-].
  - discriminate.
Qed.

Lemma filtered_out_invalid_price consumedTokens d :
  valid_price (Core.Price (bid d)) = false ->
  filtered_out consumedTokens d =
  Some (mkExcludedBid (Core.ID (bid d)) (Core.Bidder (bid d)) reason_invalid_price).
Proof. intros Hv. unfold filtered_out, verdict. by rewrite Hv. Qed.

End PipelineFacts.

Section PipelineOrder.
Import Enclave.
Context {L : GoLibrary}.

Lemma omap_cons_Some {A B} (f : A -> option B) (x : A) (l : list A) (y : B) :
  f x = Some y -> omap f (x :: l) = y :: omap f l.
Proof. intros H. csimpl. by rewrite H. Qed.

Lemma omap_cons_None {A B} (f : A -> option B) (x : A) (l : list A) :
  f x = None -> omap f (x :: l) = omap f l.
Proof. intros H. csimpl. by rewrite H. Qed.

Lemma exclusions_match_reports (km : option KeyManager) (bids : list EncryptedCoreBid) :
  BidID <$> omap (exclusion_of km) bids = report_BidID <$> omap (report_of km) bids /\
  Bidder <$> omap (exclusion_of km) bids = report_Bidder <$> omap (report_of km) bids.
Proof.
  induction bids as [|eb bids [IH1 IH2]]; [done|].
  destruct (resolveBid km eb) as [cause|d] eqn:Hres.
  - rewrite (omap_cons_Some (exclusion_of km) eb _
               (mkExcludedBid (Core.ID (CoreBid eb)) (Core.Bidder (CoreBid eb))
                  reason_decryption_failed))
      by (unfold exclusion_of; by rewrite Hres).
    rewrite (omap_cons_Some (report_of km) eb _
               (mkErrorReport (Core.ID (CoreBid eb)) (Core.Bidder (CoreBid eb)) cause))
      by (unfold report_of; by rewrite Hres).
    rewrite !fmap_cons. simpl. by rewrite IH1, IH2.
  - rewrite (omap_cons_None (exclusion_of km)) by (unfold exclusion_of; by rewrite Hres).
    by rewrite (omap_cons_None (report_of km)) by (unfold report_of; by rewrite Hres).
Qed.

Lemma resolveBid_nil_key_manager (eb : EncryptedCoreBid) :
  resolveBid None eb = inr (mkDecryptedBid (CoreBid eb) "").
Proof. unfold resolveBid. by destruct (EncryptedPrice eb). Qed.

Lemma omap_all_Some {A B} (f : A -> option B) (g : A -> B) (l : list A) :
  (forall x, f x = Some (g x)) -> omap f l = g <$> l.
Proof. intros H. induction l as [|x l IH]; csimpl; [done|]. by rewrite H, IH. Qed.

Lemma omap_all_None {A B} (f : A -> option B) (l : list A) :
  (forall x, f x = None) -> omap f l = [].
Proof. intros H. induction l as [|x l IH]; csimpl; [done|]. by rewrite H. Qed.

End PipelineOrder.

(** C6. When the decryption of one bid's EncryptedPrice fails (as it does
    under a key other than the one it was encrypted for), [decryptAllBids]
    emits for that bid exactly one ExclusionRecord and exactly one error
    report, both carrying the bid's identifier and bidder, between what the
    bids before it and the bids after it produce: the remaining bids are all
    processed. Over the whole batch every bid ends up resolved or excluded,
    and exclusions and error reports correspond one to one, in encounter
    order. *)
Theorem decryption_failure_is_isolated
    (L : Enclave.GoLibrary) (km : Enclave.KeyManager)
    (pre post : list Enclave.EncryptedCoreBid) (eb : Enclave.EncryptedCoreBid)
    (ep : Core.EncryptedBidPrice) (err : Enclave.DecryptError) :
  Enclave.EncryptedPrice eb = Some ep ->
  Enclave.DecryptHybrid (Core.AESKeyEncrypted ep) (Core.EncryptedPayload ep)
    (Core.Nonce ep) (Enclave.km_PrivateKey km) = inl err ->
  let before := Enclave.decryptAllBids pre (Some km) in
  let after := Enclave.decryptAllBids post (Some km) in
  let all := Enclave.decryptAllBids (pre ++ eb :: post) (Some km) in
  all = (before.1.1 ++ after.1.1,
         before.1.2
           ++ [Enclave.mkExcludedBid (Core.ID (Enclave.CoreBid eb))
                 (Core.Bidder (Enclave.CoreBid eb)) Enclave.reason_decryption_failed]
           ++ after.1.2,
         before.2
           ++ [Enclave.mkErrorReport (Core.ID (Enclave.CoreBid eb))
                 (Core.Bidder (Enclave.CoreBid eb)) (Enclave.DecryptFailed err)]
           ++ after.2) /\
  length all.1.1 + length all.1.2 = length (pre ++ eb :: post) /\
  length all.2 = length all.1.2 /\
  Enclave.BidID <$> all.1.2 = Enclave.report_BidID <$> all.2 /\
  Enclave.Bidder <$> all.1.2 = Enclave.report_Bidder <$> all.2.
Proof.
  intros Hep Herr before after all. subst before after all.
  rewrite !decryptAllBids_omap. simpl.
  assert (Enclave.resolveBid (Some km) eb = inl (Enclave.DecryptFailed err)) as Hres.
  { unfold Enclave.resolveBid. by rewrite Hep, Herr. }
  split; [|split; [|split]].
  - rewrite !omap_app_cons.
    unfold Enclave.resolved, Enclave.exclusion_of, Enclave.report_of. by rewrite Hres.
  - apply decryptAllBids_lengths.
  - apply decryptAllBids_lengths.
  - apply exclusions_match_reports.
Qed.

(** [TestDecryptBids_WrongKey] under the stand-in library: a price encrypted
    for key 1 and an enclave holding key 2. *)
Lemma decryption_failure_is_isolated_witness :
  Enclave.decryptAllBids (L:=Enclave.stand_in_library)
    [Enclave.encrypted_bid x01 Enclave.payload_2_50]
    (Some (Enclave.mkKeyManager (L:=Enclave.stand_in_library) x02)) =
  ([],
   [Enclave.mkExcludedBid "bid1" "bidder1" Enclave.reason_decryption_failed],
   [Enclave.mkErrorReport "bid1" "bidder1"
      (Enclave.DecryptFailed Enclave.ErrDecryptAESKey)]).
Proof.
  refine (proj1 (decryption_failure_is_isolated Enclave.stand_in_library
                   (Enclave.mkKeyManager (L:=Enclave.stand_in_library) x02) [] []
                   (Enclave.encrypted_bid x01 Enclave.payload_2_50)
                   _ Enclave.ErrDecryptAESKey _ _)).
  - reflexivity.
  - reflexivity.
Defined.

(** C7. A bid that the decryption stage resolves (a payload that decrypts
    and parses, or a plaintext bid) to a price that is not a finite number
    strictly greater than zero: [decryptAllBids] hands it on and adds no
    exclusion and no error report for it; [filterBidsByConsumedTokens] then
    excludes it with reason "invalid price", and it is not in the admissible
    set, all of whose bids have a finite price greater than zero. *)
Theorem invalid_price_excluded_by_filter
    (L : Enclave.GoLibrary) (km : option Enclave.KeyManager)
    (pre post : list Enclave.EncryptedCoreBid) (eb : Enclave.EncryptedCoreBid)
    (d : Enclave.DecryptedBid) (consumedTokens : gset string) :
  Enclave.resolveBid km eb = inr d ->
  Enclave.valid_price (Core.Price (Enclave.bid d)) = false ->
  let before := Enclave.decryptAllBids pre km in
  let after := Enclave.decryptAllBids post km in
  let all := Enclave.decryptAllBids (pre ++ eb :: post) km in
  let out := Enclave.filterBidsByConsumedTokens all.1.1 consumedTokens in
  all = (before.1.1 ++ [d] ++ after.1.1, before.1.2 ++ after.1.2, before.2 ++ after.2) /\
  (Enclave.mkExcludedBid (Core.ID (Enclave.bid d)) (Core.Bidder (Enclave.bid d))
     Enclave.reason_invalid_price ∈ out.2) /\
  (Enclave.bid d ∉ out.1) /\
  Forall (fun b => Enclave.valid_price (Core.Price b) = true) out.1.
Proof.
  intros Hres Hprice before after all out.
  assert (all = (before.1.1 ++ [d] ++ after.1.1, before.1.2 ++ after.1.2,
                 before.2 ++ after.2)) as Hall.
  { subst before after all. rewrite !decryptAllBids_omap. simpl.
    rewrite !omap_app_cons.
    unfold Enclave.resolved, Enclave.exclusion_of, Enclave.report_of. by rewrite Hres. }
  assert (Forall (fun b => Enclave.valid_price (Core.Price b) = true) out.1) as Hadm.
  { subst out. rewrite filterBidsByConsumedTokens_omap. simpl.
    apply Forall_forall. intros b Hb. apply list_elem_of_omap in Hb as (d' & _ & Hd').
    by eapply admitted_valid_price. }
  split; [done|]. split; [|split; [|done]].
  - subst out. rewrite filterBidsByConsumedTokens_omap, Hall. simpl.
    apply list_elem_of_omap. exists d. split; [set_solver|].
    by apply filtered_out_invalid_price.
  - intros Hin. rewrite Forall_forall in Hadm. apply Hadm in Hin. congruence.
Qed.

(** [TestDecryptBids_InvalidPrice] under the stand-in library: the payload
    with price -1.50 decrypts without error and the filter excludes it. *)
Lemma invalid_price_excluded_by_filter_witness :
  let km := Some (Enclave.mkKeyManager (L:=Enclave.stand_in_library) x01) in
  let eb := Enclave.encrypted_bid x01 Enclave.payload_neg_1_50 in
  let d := Enclave.mkDecryptedBid
             (Core.mkCoreBid "bid1" "bidder1" Enclave.price_neg_1_50 "" "" "") "" in
  Core.valid_float64 Enclave.price_neg_1_50 = true /\
  Enclave.decryptAllBids (L:=Enclave.stand_in_library) [eb] km = ([d], [], []) /\
  (Enclave.mkExcludedBid "bid1" "bidder1" Enclave.reason_invalid_price
     ∈ (Enclave.filterBidsByConsumedTokens [d] ∅).2) /\
  (Enclave.bid d ∉ (Enclave.filterBidsByConsumedTokens [d] ∅).1).
Proof.
  intros km eb d. split; [reflexivity|].
  destruct (invalid_price_excluded_by_filter Enclave.stand_in_library km [] [] eb d ∅)
    as (Hall & Hexc & Hnot & _); [reflexivity|reflexivity|].
  split; [exact Hall|]. rewrite Hall in Hexc, Hnot. split; [exact Hexc|exact Hnot].
Defined.

(** C8. When the key manager is absent, [decryptAllBids] passes every bid
    through, whether or not it carries an EncryptedPrice, with the plaintext
    price it already carries, and raises no error report and no exclusion. *)
Theorem nil_key_manager_passes_through
    (L : Enclave.GoLibrary) (encBids : list Enclave.EncryptedCoreBid) :
  Enclave.decryptAllBids encBids None =
    ((fun eb => Enclave.mkDecryptedBid (Enclave.CoreBid eb) "") <$> encBids, [], []) /\
  (Core.Price ∘ Enclave.bid) <$> (Enclave.decryptAllBids encBids None).1.1 =
    (Core.Price ∘ Enclave.CoreBid) <$> encBids.
Proof.
  rewrite decryptAllBids_omap.
  rewrite (omap_all_Some _ (fun eb => Enclave.mkDecryptedBid (Enclave.CoreBid eb) ""))
    by (intros eb; unfold Enclave.resolved; by rewrite resolveBid_nil_key_manager).
  rewrite !omap_all_None
    by (intros eb; unfold Enclave.exclusion_of, Enclave.report_of;
        by rewrite resolveBid_nil_key_manager).
  split; [done|]. simpl. by rewrite <- list_fmap_compose.
Qed.

(** * Further properties of the code *)

(** ** Issuing, validating and consuming tokens *)

Section TokenLifeCycle.
Import TokenManager.
Implicit Types (tm : gmap string AuctionToken) (t : string).

Lemma ValidateToken_lookup t tm :
  ValidateToken t tm = negb (String.eqb t "") && bool_decide (is_Some (tm !! t)).
Proof. unfold ValidateToken, Load. by destruct (String.eqb t ""). Qed.

Lemma ValidateToken_true t tm :
  ValidateToken t tm = true <-> t <> "" /\ is_Some (tm !! t).
Proof.
  rewrite ValidateToken_lookup, andb_true_iff, negb_true_iff, String.eqb_neq.
  by rewrite bool_decide_eq_true.
Qed.

Lemma ConsumeTokens_lookup (ids : list string) : forall tm t,
  ConsumeTokens ids tm !! t = if decide (t ∈ ids) then None else tm !! t.
Proof.
  unfold ConsumeTokens, Delete.
  induction ids as [|i ids IH]; intros tm t.
  - rewrite decide_False; [done|]. apply not_elem_of_nil.
  - destruct (decide (t ∈ i :: ids)) as [Hin|Hnin]; simpl; rewrite IH.
    + destruct (decide (t ∈ ids)) as [|Hnot]; [done|].
      apply elem_of_cons in Hin as [->|?]; [apply lookup_delete_eq|done].
    + apply not_elem_of_cons in Hnin as [Hne Hnot].
      rewrite decide_False by done. by apply lookup_delete_ne.
Qed.

Lemma ConsumeTokens_dom (ids : list string) tm :
  dom (ConsumeTokens ids tm) = dom tm ∖ list_to_set ids.
Proof.
  apply set_eq. intros t.
  rewrite elem_of_difference, !elem_of_dom, elem_of_list_to_set, ConsumeTokens_lookup.
  destruct (decide (t ∈ ids)); [|tauto].
  split; [by intros [? ?]|tauto].
Qed.

End TokenLifeCycle.

(** X1. [GenerateToken] stores what it returns: for a non-empty identifier
    the returned identifier is the generated one, it validates afterwards,
    the stored token carries it, the validity of every other identifier is
    as before, and [Count] grows by one exactly when the identifier was not
    in the store already. *)
Theorem generate_token_is_stored
    (tm : gmap string TokenManager.AuctionToken) (uuid : string) (now : Z) :
  uuid <> "" ->
  let tokenID := (TokenManager.GenerateToken uuid now tm).1 in
  let tm' := (TokenManager.GenerateToken uuid now tm).2 in
  tokenID = uuid /\
  TokenManager.ValidateToken tokenID tm' = true /\
  tm' !! tokenID = Some (TokenManager.mkAuctionToken uuid now) /\
  (forall t, t <> uuid ->
     TokenManager.ValidateToken t tm' = TokenManager.ValidateToken t tm) /\
  TokenManager.Count tm' =
    (if decide (is_Some (tm !! uuid)) then TokenManager.Count tm
     else S (TokenManager.Count tm)).
Proof.
  intros Hne. unfold TokenManager.GenerateToken, TokenManager.Store. simpl.
  split; [done|]. split; [|split; [|split]].
  - apply ValidateToken_true. split; [done|]. rewrite lookup_insert_eq. eauto.
  - apply lookup_insert_eq.
  - intros t Ht. rewrite !ValidateToken_lookup. by rewrite lookup_insert_ne.
  - rewrite !Count_size. destruct (decide (is_Some (tm !! uuid))) as [Hin|Hnin].
    + by apply map_size_insert_Some.
    + apply map_size_insert_None. by apply eq_None_not_Some.
Qed.

(** [TestTokenManager_GenerateToken]: one token in a new store. *)
Lemma generate_token_is_stored_witness :
  let tm' := (TokenManager.GenerateToken "6ba7b810-9dad-11d1-80b4-00c04fd430c8" 5
                TokenManager.NewTokenManager).2 in
  TokenManager.ValidateToken "6ba7b810-9dad-11d1-80b4-00c04fd430c8" tm' = true /\
  TokenManager.Count tm' = 1.
Proof.
  destruct (generate_token_is_stored TokenManager.NewTokenManager
              "6ba7b810-9dad-11d1-80b4-00c04fd430c8" 5) as (_ & Hv & _ & _ & Hc);
    [discriminate|].
  split; [exact Hv|exact Hc].
Defined.

(** X2. [ValidateToken] is true exactly for a non-empty identifier present in
    the store, and it tells what [ValidateAndConsumeToken] would return on
    the same store. *)
Theorem validate_token_predicts_consumption
    (tm : gmap string TokenManager.AuctionToken) (t : string) :
  (TokenManager.ValidateToken t tm = true <-> (t <> "" /\ is_Some (tm !! t))) /\
  TokenManager.ValidateToken t tm = (TokenManager.ValidateAndConsumeToken t tm).1.
Proof.
  split; [apply ValidateToken_true|].
  rewrite ValidateToken_lookup. destruct (decide (t = "")) as [->|Hne]; [done|].
  rewrite ValidateAndConsumeToken_nonempty by done. simpl.
  by rewrite eqb_empty_false.
Qed.

(** X3. [ConsumeToken] removes the token whether or not it is there: the
    identifier no longer validates, every other identifier validates as
    before, consuming again changes nothing, consuming an absent identifier
    changes nothing, and [Count] drops by one exactly when the identifier was
    present. For a non-empty identifier it leaves the store that
    [ValidateAndConsumeToken] leaves. *)
Theorem consume_token_idempotent_removal
    (tm : gmap string TokenManager.AuctionToken) (t : string) :
  TokenManager.ValidateToken t (TokenManager.ConsumeToken t tm) = false /\
  (forall t', t' <> t ->
     TokenManager.ValidateToken t' (TokenManager.ConsumeToken t tm)
     = TokenManager.ValidateToken t' tm) /\
  TokenManager.ConsumeToken t (TokenManager.ConsumeToken t tm)
    = TokenManager.ConsumeToken t tm /\
  (tm !! t = None -> TokenManager.ConsumeToken t tm = tm) /\
  TokenManager.Count tm =
    TokenManager.Count (TokenManager.ConsumeToken t tm)
    + (if decide (is_Some (tm !! t)) then 1 else 0) /\
  (t <> "" ->
   (TokenManager.ValidateAndConsumeToken t tm).2 = TokenManager.ConsumeToken t tm).
Proof.
  unfold TokenManager.ConsumeToken, TokenManager.Delete.
  split; [|split; [|split; [|split; [|split]]]].
  - rewrite ValidateToken_lookup, lookup_delete_eq.
    rewrite bool_decide_eq_false_2; [apply andb_false_r|]. by intros [? ?].
  - intros t' Hne. rewrite !ValidateToken_lookup. by rewrite lookup_delete_ne.
  - apply delete_delete_eq.
  - apply delete_id.
  - rewrite (Count_size tm), (Count_size (delete t tm)), map_size_delete.
    destruct (decide (is_Some (tm !! t))) as [[x Hx]|Hnin].
    + rewrite Hx. assert (size tm <> 0); [|lia].
      intros H0. apply map_size_empty_inv in H0. subst tm. by rewrite lookup_empty in Hx.
    + apply eq_None_not_Some in Hnin. rewrite Hnin. simpl. lia.
  - intros Hne. by rewrite ValidateAndConsumeToken_nonempty.
Qed.

(** X4. [ConsumeTokens] removes exactly the listed identifiers: a listed
    identifier is absent afterwards, an unlisted one is as before, and
    [Count] drops by the number of distinct listed identifiers that were
    present (listing an identifier twice, or listing an absent one, is
    harmless). *)
Theorem consume_tokens_removes_listed
    (tm : gmap string TokenManager.AuctionToken) (tokenIDs : list string) :
  (forall t, t ∈ tokenIDs -> TokenManager.ConsumeTokens tokenIDs tm !! t = None) /\
  (forall t, t ∉ tokenIDs -> TokenManager.ConsumeTokens tokenIDs tm !! t = tm !! t) /\
  TokenManager.Count tm =
    TokenManager.Count (TokenManager.ConsumeTokens tokenIDs tm)
    + size (dom tm ∩ list_to_set tokenIDs : gset string).
Proof.
  split; [|split].
  - intros t Ht. rewrite ConsumeTokens_lookup. by rewrite decide_True.
  - intros t Ht. rewrite ConsumeTokens_lookup. by rewrite decide_False.
  - rewrite (Count_size tm), (Count_size (TokenManager.ConsumeTokens tokenIDs tm)).
    rewrite <- (size_dom (D:=gset string) tm).
    rewrite <- (size_dom (D:=gset string) (TokenManager.ConsumeTokens tokenIDs tm)).
    rewrite ConsumeTokens_dom.
    rewrite size_difference_alt.
    assert (size (dom tm ∩ list_to_set tokenIDs : gset string)
            <= size (dom tm : gset string)); [|lia].
    apply subseteq_size, intersection_subseteq_l.
Qed.

(** X5. The order and the repetitions in the list given to [ConsumeTokens]
    do not matter, and consuming a list is consuming its parts one after the
    other, each identifier with [ConsumeToken]. *)
Theorem consume_tokens_composes
    (tm : gmap string TokenManager.AuctionToken) (ids1 ids2 : list string) :
  ((forall t, t ∈ ids1 <-> t ∈ ids2) ->
   TokenManager.ConsumeTokens ids1 tm = TokenManager.ConsumeTokens ids2 tm) /\
  TokenManager.ConsumeTokens (ids1 ++ ids2) tm
    = TokenManager.ConsumeTokens ids2 (TokenManager.ConsumeTokens ids1 tm) /\
  TokenManager.ConsumeTokens ids1 tm
    = foldl (fun m t => TokenManager.ConsumeToken t m) tm ids1.
Proof.
  split; [|split].
  - intros Hsame. apply map_eq. intros t. rewrite !ConsumeTokens_lookup.
    destruct (decide (t ∈ ids1)) as [H1|H1], (decide (t ∈ ids2)) as [H2|H2];
      try done; by apply Hsame in H1 || apply Hsame in H2.
  - unfold TokenManager.ConsumeTokens. apply foldl_app.
  - reflexivity.
Qed.

(** ** Expiration *)

Section Expiration.
Import TokenManager.
Implicit Types (tm m : gmap string AuctionToken) (l : list (string * AuctionToken)).

Lemma RemoveExpiredIn_foldl l now maxAge tm :
  RemoveExpiredIn l now maxAge tm =
  ((foldl (removeIfExpired now maxAge) (tm, 0) l).2,
   (foldl (removeIfExpired now maxAge) (tm, 0) l).1).
Proof. unfold RemoveExpiredIn. by destruct (foldl _ _ _). Qed.

Lemma size_delete_present m k token :
  m !! k = Some token -> S (size (delete k m)) = size m.
Proof.
  intros Hk. rewrite map_size_delete, Hk. simpl.
  assert (size m <> 0); [|lia].
  intros H0. apply map_size_empty_inv in H0. subst m. by rewrite lookup_empty in Hk.
Qed.

(** The fold behind [Range], over pairs with distinct keys that the store
    holds: it counts what it deletes, and it deletes the visited expired
    tokens and nothing else. *)
Lemma foldl_removeIfExpired now maxAge l : forall m (count : nat),
  NoDup l.*1 ->
  (forall k token, (k, token) ∈ l -> m !! k = Some token) ->
  let r := foldl (removeIfExpired now maxAge) (m, count) l in
  r.2 + size r.1 = count + size m /\
  forall k, r.1 !! k =
    token ← m !! k;
    if bool_decide (k ∈ l.*1) then kept now maxAge token else Some token.
Proof.
  induction l as [|[k0 token0] l IH]; intros m count Hnd Hheld; cbn zeta.
  { split; [done|]. intros k. simpl. by destruct (m !! k). }
  rewrite fmap_cons in Hnd. cbn [fst] in Hnd. apply NoDup_cons in Hnd as [Hk0 Hnd].
  assert (m !! k0 = Some token0) as Hm0 by (apply Hheld; left).
  assert (forall k token, (k, token) ∈ l -> k <> k0) as Hother.
  { intros k token Hin ->. apply Hk0. apply list_elem_of_fmap. by exists (k0, token). }
  assert (forall k, bool_decide (k ∈ ((k0, token0) :: l).*1) =
                    bool_decide (k = k0) || bool_decide (k ∈ l.*1)) as Hmem.
  { intros k. rewrite fmap_cons. cbn [fst].
    destruct (decide (k = k0)) as [->|Hne].
    - rewrite (bool_decide_eq_true_2 (k0 = k0)) by done.
      by rewrite (bool_decide_eq_true_2 (k0 ∈ k0 :: l.*1)) by left.
    - rewrite (bool_decide_eq_false_2 (k = k0)) by done. simpl.
      apply bool_decide_ext. rewrite elem_of_cons. tauto. }
  cbn [foldl].
  assert (removeIfExpired now maxAge (m, count) (k0, token0) =
          if is_expired now maxAge token0 then (delete k0 m, S count) else (m, count))
    as -> by reflexivity.
  destruct (is_expired now maxAge token0) eqn:Hexp.
  - destruct (IH (delete k0 m) (S count) Hnd) as [Hsize Hlook].
    { intros k token Hin. rewrite lookup_delete_ne by (symmetry; by eapply Hother).
      apply Hheld. by right. }
    split.
    + rewrite Hsize. rewrite <- (size_delete_present m k0 token0 Hm0). lia.
    + intros k. rewrite Hlook, Hmem. destruct (decide (k = k0)) as [->|Hne].
      * rewrite lookup_delete_eq, Hm0. simpl.
        rewrite bool_decide_eq_true_2 by done. simpl.
        unfold kept. by rewrite Hexp.
      * rewrite lookup_delete_ne by done.
        by rewrite (bool_decide_eq_false_2 (k = k0)) by done.
  - destruct (IH m count Hnd) as [Hsize Hlook].
    { intros k token Hin. apply Hheld. by right. }
    split; [done|].
    intros k. rewrite Hlook, Hmem. destruct (decide (k = k0)) as [->|Hne].
    + rewrite Hm0. simpl. rewrite (bool_decide_eq_false_2 (k0 ∈ l.*1)) by done.
      rewrite bool_decide_eq_true_2 by done. simpl.
      unfold kept. by rewrite Hexp.
    + by rewrite (bool_decide_eq_false_2 (k = k0)) by done.
Qed.

Lemma RemoveExpiredIn_spec l now maxAge tm :
  l ≡ₚ map_to_list tm ->
  (RemoveExpiredIn l now maxAge tm).1 + size (RemoveExpiredIn l now maxAge tm).2 = size tm /\
  forall k, (RemoveExpiredIn l now maxAge tm).2 !! k = tm !! k ≫= kept now maxAge.
Proof.
  intros Hperm. rewrite RemoveExpiredIn_foldl. simpl.
  destruct (foldl_removeIfExpired now maxAge l tm 0) as [Hsize Hlook].
  { rewrite Hperm. apply NoDup_fst_map_to_list. }
  { intros k token Hin. rewrite Hperm in Hin. by apply elem_of_map_to_list. }
  split; [done|]. intros k. rewrite Hlook.
  destruct (tm !! k) as [token|] eqn:Hk; [|done]. simpl.
  rewrite bool_decide_eq_true_2; [done|].
  apply list_elem_of_fmap. exists (k, token). split; [done|].
  rewrite Hperm. by apply elem_of_map_to_list.
Qed.

Lemma RemoveExpired_lookup now maxAge tm k :
  (RemoveExpired now maxAge tm).2 !! k = tm !! k ≫= kept now maxAge.
Proof. by apply RemoveExpiredIn_spec. Qed.

Lemma RemoveExpired_subseteq now maxAge tm k token :
  (RemoveExpired now maxAge tm).2 !! k = Some token -> tm !! k = Some token.
Proof.
  rewrite RemoveExpired_lookup. destruct (tm !! k) as [token'|]; [|done]. simpl.
  unfold kept. destruct (is_expired now maxAge token'); [done|]. by intros [= ->].
Qed.

Lemma Sub_gt (now created maxAge : Z) :
  (minDuration <= maxAge <= maxDuration)%Z ->
  (maxAge < Sub now created)%Z <-> (maxAge < now - created /\ maxAge < maxDuration)%Z.
Proof. unfold Sub, minDuration, maxDuration. lia. Qed.

End Expiration.

(** X6. [RemoveExpired] removes exactly the expired tokens and counts them
    exactly, in whatever order [Range] visits the store: a token whose age
    [now.Sub(CreatedAt)] exceeds [maxAge] is gone, every other token is
    untouched, nothing appears, and the returned number is the number of
    entries by which the store has shrunk. *)
Theorem remove_expired_exact
    (tm : gmap string TokenManager.AuctionToken)
    (visits : list (string * TokenManager.AuctionToken)) (now maxAge : Z) :
  visits ≡ₚ map_to_list tm ->
  let r := TokenManager.RemoveExpiredIn visits now maxAge tm in
  (forall k token, tm !! k = Some token ->
     r.2 !! k = if TokenManager.is_expired now maxAge token then None else Some token) /\
  (forall k, tm !! k = None -> r.2 !! k = None) /\
  r.1 + TokenManager.Count r.2 = TokenManager.Count tm /\
  r = TokenManager.RemoveExpired now maxAge tm.
Proof.
  intros Hperm r. subst r.
  destruct (RemoveExpiredIn_spec visits now maxAge tm Hperm) as [Hsize Hlook].
  destruct (RemoveExpiredIn_spec (map_to_list tm) now maxAge tm (reflexivity _))
    as [Hsize' Hlook'].
  fold (TokenManager.RemoveExpired now maxAge tm) in Hsize', Hlook'.
  assert ((TokenManager.RemoveExpiredIn visits now maxAge tm).2 =
          (TokenManager.RemoveExpired now maxAge tm).2) as Hstore.
  { apply map_eq. intros k. by rewrite Hlook, Hlook'. }
  split; [|split; [|split]].
  - intros k token Hk. by rewrite Hlook, Hk.
  - intros k Hk. by rewrite Hlook, Hk.
  - by rewrite (Count_size tm), Count_size.
  - rewrite Hstore in Hsize.
    destruct (TokenManager.RemoveExpiredIn visits now maxAge tm) as [n1 m1].
    destruct (TokenManager.RemoveExpired now maxAge tm) as [n2 m2].
    simpl in *. subst m1. f_equal. lia.
Qed.

(** [TestTokenManager_RemoveExpired], with whole seconds: at time 200 s a
    token created at 80 s and one created at 190 s, swept with a [maxAge] of
    one minute, the store visited in the reverse of the order the model
    lists it in. One token is removed, the recent one stays. *)
Lemma remove_expired_exact_witness :
  let tm : gmap string TokenManager.AuctionToken :=
    <["old-token" := TokenManager.mkAuctionToken "old-token" 80000000000]>
      (<["recent-token" := TokenManager.mkAuctionToken "recent-token" 190000000000]> ∅) in
  let r := TokenManager.RemoveExpiredIn (reverse (map_to_list tm))
             200000000000 60000000000 tm in
  r.1 = 1 /\ r.2 !! "old-token" = None /\
  r.2 !! "recent-token" = Some (TokenManager.mkAuctionToken "recent-token" 190000000000) /\
  TokenManager.Count r.2 = 1.
Proof.
  intros tm r.
  destruct (remove_expired_exact tm (reverse (map_to_list tm)) 200000000000 60000000000)
    as (Hsome & _ & Hcount & _); [apply reverse_Permutation|].
  fold r in Hsome, Hcount.
  pose proof (Hsome "old-token" (TokenManager.mkAuctionToken "old-token" 80000000000)
                eq_refl) as Hold.
  pose proof (Hsome "recent-token"
                (TokenManager.mkAuctionToken "recent-token" 190000000000) eq_refl)
    as Hrecent.
  split; [by vm_compute|]. split; [exact Hold|]. split; [exact Hrecent|]. by vm_compute.
Defined.

(** X7. After a sweep, a second sweep at the same instant with the same or
    a larger [maxAge] finds nothing to remove: it returns 0 and leaves the
    store as it is. *)
Theorem remove_expired_again_removes_nothing
    (tm : gmap string TokenManager.AuctionToken) (now maxAge maxAge' : Z) :
  (maxAge <= maxAge')%Z ->
  TokenManager.RemoveExpired now maxAge'
    (TokenManager.RemoveExpired now maxAge tm).2
  = (0, (TokenManager.RemoveExpired now maxAge tm).2).
Proof.
  intros Hle. set (tm1 := (TokenManager.RemoveExpired now maxAge tm).2).
  destruct (RemoveExpiredIn_spec (map_to_list tm1) now maxAge' tm1 (reflexivity _))
    as [Hsize Hlook].
  fold (TokenManager.RemoveExpired now maxAge' tm1) in Hsize, Hlook.
  assert ((TokenManager.RemoveExpired now maxAge' tm1).2 = tm1) as Hsame.
  { apply map_eq. intros k. rewrite Hlook.
    destruct (tm1 !! k) as [token|] eqn:Hk; [|done]. simpl.
    subst tm1. rewrite RemoveExpired_lookup in Hk.
    destruct (tm !! k) as [token'|]; [|done]. simpl in Hk. unfold TokenManager.kept in *.
    destruct (TokenManager.is_expired now maxAge token') eqn:Hexp; [done|].
    injection Hk as ->. unfold TokenManager.is_expired in *.
    apply Z.ltb_ge in Hexp. rewrite (proj2 (Z.ltb_ge _ _)); [done|lia]. }
  rewrite Hsame in Hsize.
  destruct (TokenManager.RemoveExpired now maxAge' tm1) as [n m]. simpl in *.
  subst m. f_equal. lia.
Qed.

Lemma remove_expired_again_removes_nothing_witness :
  let tm : gmap string TokenManager.AuctionToken :=
    <["old-token" := TokenManager.mkAuctionToken "old-token" 80000000000]>
      (<["recent-token" := TokenManager.mkAuctionToken "recent-token" 190000000000]> ∅) in
  TokenManager.RemoveExpired 200000000000 60000000000
    (TokenManager.RemoveExpired 200000000000 60000000000 tm).2
  = (0, (TokenManager.RemoveExpired 200000000000 60000000000 tm).2).
Proof.
  intros tm. apply (remove_expired_again_removes_nothing tm 200000000000
                      60000000000 60000000000). lia.
Defined.

(** X8. The threshold of [RemoveExpired] is strict and bounded by the range
    of [Duration]: for a [maxAge] that is an int64, a stored token is removed
    exactly when [now - CreatedAt], as an exact number of nanoseconds, is
    greater than [maxAge] and [maxAge] is not the largest [Duration]. A token
    exactly [maxAge] old is kept, and with [maxAge = math.MaxInt64] nothing
    ever expires. *)
Theorem remove_expired_threshold
    (tm : gmap string TokenManager.AuctionToken) (now maxAge : Z)
    (k : string) (token : TokenManager.AuctionToken) :
  (TokenManager.minDuration <= maxAge <= TokenManager.maxDuration)%Z ->
  tm !! k = Some token ->
  ((TokenManager.RemoveExpired now maxAge tm).2 !! k = None <->
   (maxAge < now - TokenManager.CreatedAt token /\ maxAge < TokenManager.maxDuration)%Z) /\
  ((TokenManager.RemoveExpired now maxAge tm).2 !! k = Some token <->
   (now - TokenManager.CreatedAt token <= maxAge \/ maxAge = TokenManager.maxDuration)%Z).
Proof.
  intros Hrange Hk. rewrite RemoveExpired_lookup, Hk. simpl.
  unfold TokenManager.kept, TokenManager.is_expired.
  pose proof (Sub_gt now (TokenManager.CreatedAt token) maxAge Hrange) as Hsub.
  destruct (maxAge <? TokenManager.Sub now (TokenManager.CreatedAt token))%Z eqn:Hexp.
  - apply Z.ltb_lt in Hexp. apply Hsub in Hexp. split; split; try done; lia.
  - apply Z.ltb_ge in Hexp. split; split; try done.
    + intros Hgt. apply Hsub in Hgt. lia.
    + intros _. destruct (decide (maxAge = TokenManager.maxDuration)); [by right|left].
      destruct (decide (now - TokenManager.CreatedAt token <= maxAge)%Z); [done|].
      assert (maxAge < TokenManager.Sub now (TokenManager.CreatedAt token))%Z; [|lia].
      apply Hsub. lia.
Qed.

(** A token exactly one minute old, swept with a [maxAge] of one minute. *)
Lemma remove_expired_threshold_witness :
  let token := TokenManager.mkAuctionToken "minute-old" 140000000000 in
  let tm : gmap string TokenManager.AuctionToken := <["minute-old" := token]> ∅ in
  (TokenManager.RemoveExpired 200000000000 60000000000 tm).2 !! "minute-old" = Some token.
Proof.
  intros token tm.
  destruct (remove_expired_threshold tm 200000000000 60000000000 "minute-old" token)
    as [_ Hkept]; [by vm_compute|reflexivity|].
  apply Hkept. left. by vm_compute.
Defined.

Section CleanupGoroutine.
Import TokenManager.
Implicit Types (tm : gmap string AuctionToken) (s : cleanup).

Lemma cleanup_step_inv maxAge tm s s' :
  (forall k, tokens s !! k = tm !! k ≫= after_sweeps maxAge (swept s)) /\
  (exited s = true -> ctx_Done s = true) ->
  cleanup_step maxAge s s' ->
  (forall k, tokens s' !! k = tm !! k ≫= after_sweeps maxAge (swept s')) /\
  (exited s' = true -> ctx_Done s' = true).
Proof.
  intros [Hstore Hexit] Hstep.
  destruct Hstep as [s|s Hrun|s Hrun Hdone|s now Hrun Htick]; simpl;
    try (split; [exact Hstore|]); try done.
  split; [|done]. intros k. rewrite RemoveExpired_lookup, Hstore.
  destruct (tm !! k) as [token|]; [|done]. simpl.
  unfold after_sweeps, kept. simpl.
  destruct (existsb _ (swept s)); simpl; [by rewrite orb_true_r|].
  rewrite orb_false_r. by destruct (is_expired now maxAge token).
Qed.

Lemma cleanup_reachable_inv maxAge cancelled tm s :
  rtc (cleanup_step maxAge) (StartExpirationCleanup cancelled tm) s ->
  (forall k, tokens s !! k = tm !! k ≫= after_sweeps maxAge (swept s)) /\
  (exited s = true -> ctx_Done s = true).
Proof.
  revert s. apply rtc_ind_r.
  - split; [|done]. intros k. simpl. by destruct (tm !! k).
  - intros s s' _ Hstep IH. by apply (cleanup_step_inv maxAge tm s s').
Qed.

Lemma cleanup_exited_stable maxAge s s' :
  exited s = true -> rtc (cleanup_step maxAge) s s' ->
  tokens s' = tokens s /\ swept s' = swept s /\ exited s' = true.
Proof.
  intros Hexit Hsteps. induction Hsteps as [s|s s1 s' Hstep Hsteps IH]; [done|].
  assert (tokens s1 = tokens s /\ swept s1 = swept s /\ exited s1 = true)
    as (Ht & Hs & He).
  { destruct Hstep as [s|s Hrun|s Hrun Hdone|s now Hrun Htick]; simpl;
      try done; congruence. }
  destruct (IH He) as (Ht' & Hs' & He'). repeat split; congruence.
Qed.

End CleanupGoroutine.

(** X9. The goroutine of [StartExpirationCleanup], with [select] free to
    serve a ready tick or the cancelled context in any order. In every state
    it can reach: a token of the initial store is gone exactly when it was
    expired at the time of one of the sweeps made so far, every other token
    is untouched and nothing is added; the goroutine has returned only if the
    context is cancelled; while it has not returned and the context is
    cancelled, returning is a step it can take; and once it has returned,
    whatever happens next, the store stays as it is and no sweep is made. *)
Theorem cleanup_goroutine_removes_only_expired
    (maxAge : Z) (cancelled : bool) (tm : gmap string TokenManager.AuctionToken)
    (s : TokenManager.cleanup) :
  rtc (TokenManager.cleanup_step maxAge)
      (TokenManager.StartExpirationCleanup cancelled tm) s ->
  (forall k token, tm !! k = Some token ->
     TokenManager.tokens s !! k =
     if existsb (fun now => TokenManager.is_expired now maxAge token)
                (TokenManager.swept s)
     then None else Some token) /\
  (forall k, tm !! k = None -> TokenManager.tokens s !! k = None) /\
  (TokenManager.exited s = true -> TokenManager.ctx_Done s = true) /\
  (TokenManager.exited s = false -> TokenManager.ctx_Done s = true ->
   exists s', TokenManager.cleanup_step maxAge s s' /\
              TokenManager.exited s' = true /\
              TokenManager.tokens s' = TokenManager.tokens s) /\
  (TokenManager.exited s = true ->
   forall s', rtc (TokenManager.cleanup_step maxAge) s s' ->
     TokenManager.tokens s' = TokenManager.tokens s /\
     TokenManager.swept s' = TokenManager.swept s /\
     TokenManager.exited s' = true).
Proof.
  intros Hsteps.
  destruct (cleanup_reachable_inv maxAge cancelled tm s Hsteps) as [Hstore Hexit].
  split; [|split; [|split; [done|split]]].
  - intros k token Hk. by rewrite Hstore, Hk.
  - intros k Hk. by rewrite Hstore, Hk.
  - intros Hrun Hdone. eexists. split; [by apply TokenManager.select_ctx_Done|done].
  - intros Hexited s'. by apply cleanup_exited_stable.
Qed.

(** A token created at 0 and a [maxAge] of 5. The ticker fires, then the
    context is cancelled; [select] serves the tick first, at time 10, and the
    token is swept after the cancellation; then the goroutine returns. *)
Lemma cleanup_goroutine_removes_only_expired_witness :
  let token := TokenManager.mkAuctionToken "token-1" 0 in
  let tm : gmap string TokenManager.AuctionToken := {["token-1" := token]} in
  let s0 := TokenManager.StartExpirationCleanup false tm in
  let s1 := TokenManager.mkCleanup tm false true false [] in
  let s2 := TokenManager.mkCleanup tm true true false [] in
  let s3 := TokenManager.mkCleanup ∅ true false false [10%Z] in
  let s4 := TokenManager.mkCleanup ∅ true false true [10%Z] in
  (TokenManager.cleanup_step 5 s0 s1 /\ TokenManager.cleanup_step 5 s1 s2 /\
   TokenManager.cleanup_step 5 s2 s3 /\ TokenManager.cleanup_step 5 s3 s4 /\
   rtc (TokenManager.cleanup_step 5) s0 s4) /\
  TokenManager.tokens s2 !! "token-1" = Some token /\
  TokenManager.tokens s4 !! "token-1" = None /\
  TokenManager.ctx_Done s4 = true.
Proof.
  intros token tm s0 s1 s2 s3 s4.
  assert (TokenManager.cleanup_step 5 s0 s1) as H01
    by (by apply (TokenManager.ticker_fires 5 s0)).
  assert (TokenManager.cleanup_step 5 s1 s2) as H12
    by apply (TokenManager.context_cancelled 5 s1).
  assert (TokenManager.cleanup_step 5 s2 s3) as H23.
  { replace s3 with
      (TokenManager.mkCleanup
         (TokenManager.RemoveExpired 10 5 (TokenManager.tokens s2)).2
         (TokenManager.ctx_Done s2) false false (10%Z :: TokenManager.swept s2))
      by (by vm_compute).
    by apply (TokenManager.select_ticker_C 5 s2 10). }
  assert (TokenManager.cleanup_step 5 s3 s4) as H34
    by (by apply (TokenManager.select_ctx_Done 5 s3)).
  assert (rtc (TokenManager.cleanup_step 5) s0 s4) as Hrun.
  { eapply rtc_l; [exact H01|]. eapply rtc_l; [exact H12|].
    eapply rtc_l; [exact H23|]. eapply rtc_l; [exact H34|]. apply rtc_refl. }
  split; [repeat split; assumption|].
  destruct (cleanup_goroutine_removes_only_expired 5 false tm s4 Hrun)
    as (Hgone & _ & Hdone & _).
  split; [by vm_compute|]. split; [|by apply Hdone].
  rewrite (Hgone "token-1" token); [reflexivity|by vm_compute].
Defined.

(** ** Sequences of calls *)

Section CallSequences.
Import TokenManager.
Implicit Types (tm : gmap string AuctionToken) (t : string) (c : call).

(** A call that does not issue [t] cannot put [t] into the store. *)
Lemma perform_no_new_token tm c t token :
  ~ issues t c -> perform tm c !! t = Some token -> tm !! t = Some token.
Proof.
  intros Hnot. destruct c as [uuid now|t'|t'|t'|ids|now maxAge|]; simpl in *; try done.
  - unfold Store. by rewrite lookup_insert_ne.
  - destruct (decide (t' = "")) as [->|Hne]; [done|].
    rewrite ValidateAndConsumeToken_nonempty by done. simpl.
    intros H. by apply lookup_delete_Some in H as [_ H].
  - unfold ConsumeToken, Delete. intros H. by apply lookup_delete_Some in H as [_ H].
  - rewrite ConsumeTokens_lookup. by destruct (decide (t ∈ ids)).
  - apply RemoveExpired_subseteq.
Qed.

Lemma perform_all_no_new_token (calls : list call) : forall tm t,
  Forall (fun c => ~ issues t c) calls ->
  tm !! t = None -> foldl perform tm calls !! t = None.
Proof.
  induction calls as [|c calls IH]; intros tm t Hnot Habsent; simpl; [done|].
  apply Forall_cons in Hnot as [Hc Hnot]. apply IH; [done|].
  apply eq_None_not_Some. intros [token Htoken].
  apply perform_no_new_token in Htoken; [congruence|done].
Qed.

Lemma perform_issued_only tm c :
  ~ issues "" c -> issued_only tm -> issued_only (perform tm c).
Proof.
  unfold issued_only. intros Hnot Hempty.
  apply eq_None_not_Some. intros [token Htoken].
  apply perform_no_new_token in Htoken; [congruence|done].
Qed.

Lemma perform_keyed_by_id tm c : keyed_by_id tm -> keyed_by_id (perform tm c).
Proof.
  intros Hkeyed k token Hk.
  assert (~ issues k c -> TokenID token = k) as Hold.
  { intros Hnot. apply Hkeyed. by eapply perform_no_new_token. }
  destruct c as [uuid now| | | | | |]; try (apply Hold; simpl; tauto).
  destruct (decide (uuid = k)) as [->|Hne]; [|apply Hold; simpl; tauto].
  simpl in Hk. unfold Store in Hk. rewrite lookup_insert_eq in Hk. by injection Hk as <-.
Qed.

End CallSequences.

Section CallHistory.
Import TokenManager.
Implicit Types (tm : gmap string AuctionToken) (t : string) (c : call).

(** A token in the store was there at the start or was issued by one of the
    calls. *)
Lemma perform_all_origin (calls : list call) : forall tm k token,
  foldl perform tm calls !! k = Some token ->
  tm !! k = Some token \/
  exists now, CallGenerateToken k now ∈ calls /\ token = mkAuctionToken k now.
Proof.
  induction calls as [|c calls IH]; intros tm k token Hk; simpl in *; [by left|].
  apply IH in Hk as [Hk|(now & Hin & ->)]; [|right; exists now; split; [by right|done]].
  assert (~ issues k c -> tm !! k = Some token) as Hold.
  { intros Hnot. by eapply perform_no_new_token. }
  destruct c as [uuid now| | | | | |]; try (left; apply Hold; simpl; tauto).
  destruct (decide (uuid = k)) as [->|Hne]; [|left; apply Hold; simpl; tauto].
  right. exists now. split; [left|].
  simpl in Hk. unfold Store in Hk. rewrite lookup_insert_eq in Hk. by injection Hk as <-.
Qed.

End CallHistory.

(** X10. A consumed token never validates again: after
    [ValidateAndConsumeToken t] or [ConsumeToken t], whatever calls follow
    (issuing other tokens, validating, consuming, sweeping), as long as none
    of them issues [t] anew, [ValidateToken t] and [ValidateAndConsumeToken t]
    return false. *)
Theorem consumed_token_never_validates_again
    (tm : gmap string TokenManager.AuctionToken) (t : string)
    (calls : list TokenManager.call) :
  Forall (fun c => ~ TokenManager.issues t c) calls ->
  forall consumed,
    consumed = (TokenManager.ValidateAndConsumeToken t tm).2 \/
    consumed = TokenManager.ConsumeToken t tm ->
    let later := foldl TokenManager.perform consumed calls in
    TokenManager.ValidateToken t later = false /\
    (TokenManager.ValidateAndConsumeToken t later).1 = false.
Proof.
  intros Hnot consumed Hconsumed later.
  assert (TokenManager.ValidateToken t later = false) as Hfalse.
  { rewrite ValidateToken_lookup. destruct (decide (t = "")) as [->|Hne]; [done|].
    assert (consumed !! t = None) as Habsent.
    { destruct Hconsumed as [->| ->].
      - rewrite ValidateAndConsumeToken_nonempty by done. apply lookup_delete_eq.
      - apply lookup_delete_eq. }
    subst later. rewrite (perform_all_no_new_token calls consumed t Hnot Habsent).
    rewrite bool_decide_eq_false_2; [apply andb_false_r|]. by intros [? ?]. }
  split; [done|].
  destruct (decide (t = "")) as [->|Hne]; [done|].
  rewrite ValidateAndConsumeToken_nonempty by done. simpl.
  rewrite ValidateToken_lookup, eqb_empty_false in Hfalse by done. done.
Qed.

(** A token is consumed, another is issued, the store is swept and a batch is
    consumed: the first token still does not validate. *)
Lemma consumed_token_never_validates_again_witness :
  let tm := (TokenManager.GenerateToken "token-1" 10 TokenManager.NewTokenManager).2 in
  let later :=
    foldl TokenManager.perform (TokenManager.ValidateAndConsumeToken "token-1" tm).2
      [TokenManager.CallGenerateToken "token-2" 20;
       TokenManager.CallRemoveExpired 30 5;
       TokenManager.CallConsumeTokens ["token-2"; "token-3"];
       TokenManager.CallValidateToken "token-1"] in
  TokenManager.ValidateToken "token-1" later = false /\
  (TokenManager.ValidateAndConsumeToken "token-1" later).1 = false.
Proof.
  intros tm later.
  apply (consumed_token_never_validates_again tm "token-1"
           [TokenManager.CallGenerateToken "token-2" 20;
            TokenManager.CallRemoveExpired 30 5;
            TokenManager.CallConsumeTokens ["token-2"; "token-3"];
            TokenManager.CallValidateToken "token-1"]).
  - repeat constructor; simpl; try tauto. discriminate.
  - by left.
Defined.

(** X11. Whatever methods are called on a new [TokenManager], in whatever
    order, the store holds issued tokens only: every entry is the token some
    [GenerateToken] call stored under the identifier it returned, filed
    under its own [TokenID]; and, [GenerateToken] never returning the empty
    string, the empty string is never a key. *)
Theorem store_holds_issued_tokens_only (calls : list TokenManager.call) :
  Forall (fun c => ~ TokenManager.issues "" c) calls ->
  let tm := foldl TokenManager.perform TokenManager.NewTokenManager calls in
  TokenManager.issued_only tm /\
  TokenManager.keyed_by_id tm /\
  (forall k token, tm !! k = Some token ->
     exists now, TokenManager.CallGenerateToken k now ∈ calls /\
                 token = TokenManager.mkAuctionToken k now).
Proof.
  intros Hnot tm.
  assert (forall k token, tm !! k = Some token ->
            exists now, TokenManager.CallGenerateToken k now ∈ calls /\
                        token = TokenManager.mkAuctionToken k now) as Horigin.
  { intros k token Hk. apply perform_all_origin in Hk as [Hk|Hk]; [|done].
    unfold TokenManager.NewTokenManager in Hk. by rewrite lookup_empty in Hk. }
  split; [|split; [|done]].
  - unfold TokenManager.issued_only. apply eq_None_not_Some. intros [token Hk].
    apply Horigin in Hk as (now & Hin & _).
    rewrite Forall_forall in Hnot. by apply (Hnot _ Hin).
  - intros k token Hk. by apply Horigin in Hk as (now & _ & ->).
Qed.

Lemma store_holds_issued_tokens_only_witness :
  let tm := foldl TokenManager.perform TokenManager.NewTokenManager
              [TokenManager.CallGenerateToken "token-1" 10;
               TokenManager.CallGenerateToken "token-2" 20;
               TokenManager.CallValidateAndConsumeToken "";
               TokenManager.CallConsumeToken "token-1";
               TokenManager.CallCount] in
  TokenManager.issued_only tm /\ TokenManager.keyed_by_id tm /\
  tm !! "token-2" = Some (TokenManager.mkAuctionToken "token-2" 20).
Proof.
  intros tm.
  destruct (store_holds_issued_tokens_only
              [TokenManager.CallGenerateToken "token-1" 10;
               TokenManager.CallGenerateToken "token-2" 20;
               TokenManager.CallValidateAndConsumeToken "";
               TokenManager.CallConsumeToken "token-1";
               TokenManager.CallCount]) as (Hissued & Hkeyed & _).
  - repeat constructor; simpl; try tauto; discriminate.
  - split; [exact Hissued|]. split; [exact Hkeyed|]. reflexivity.
Defined.

(** ** Interleavings of callers with any identifiers *)

Section Interleavings.
Import TokenManager.
Implicit Types (tm st : gmap string AuctionToken) (cs : list caller) (ts : list string).

Lemma elem_of_asked t ts : t ∈ asked ts <-> t <> "" /\ t ∈ ts.
Proof. unfold asked. by rewrite elem_of_list_to_set, list_elem_of_filter. Qed.

Lemma results_fmap_pending b ts : results b (Pending <$> ts) = 0.
Proof. unfold results. induction ts; simpl; auto. Qed.

Lemma answered_mono (D D' : gset string) t (c : caller) :
  D ⊆ D' -> answered D t c -> answered D' t c.
Proof.
  intros Hsub [->|(r & -> & [->|Hin])]; [by left|right..].
  - exists r. split; [done|by left].
  - exists r. split; [done|right]. by apply Hsub.
Qed.

Lemma consumed_so_far_init ts tm : consumed_so_far ts tm (tm, Pending <$> ts).
Proof.
  exists ∅. simpl. split; [|split; [|split]].
  - apply Forall2_fmap_r, Forall_Forall2_diag, Forall_forall. intros t _. by left.
  - apply empty_subseteq.
  - intros k. rewrite decide_False; [done|]. apply not_elem_of_empty.
  - rewrite results_fmap_pending. symmetry. apply size_empty_iff, elem_of_equiv_empty.
    intros k. rewrite elem_of_intersection. intros [Hk _]. by apply not_elem_of_empty in Hk.
Qed.

Lemma size_add_consumed (D dom_tm : gset string) t :
  size ((D ∪ {[t]}) ∩ dom_tm) =
  size (D ∩ dom_tm) + (if bool_decide (t ∈ dom_tm /\ t ∉ D) then 1 else 0).
Proof.
  destruct (decide (t ∈ dom_tm /\ t ∉ D)) as [[Hin Hnew]|Hnot].
  - rewrite bool_decide_eq_true_2 by done.
    replace ((D ∪ {[t]}) ∩ dom_tm) with ((D ∩ dom_tm) ∪ {[t]}).
    + rewrite size_union, size_singleton; [done|].
      intros k. rewrite elem_of_intersection, elem_of_singleton. intros [Hk _] ->. done.
    + apply set_eq. intros k.
      rewrite !elem_of_intersection, !elem_of_union, elem_of_intersection, elem_of_singleton.
      split; [|tauto]. intros [?| ->]; tauto.
  - rewrite bool_decide_eq_false_2 by done.
    replace ((D ∪ {[t]}) ∩ dom_tm) with (D ∩ dom_tm); [lia|].
    apply set_eq. intros k. rewrite !elem_of_intersection, elem_of_union, elem_of_singleton.
    split; [tauto|]. intros [[Hk| ->] Hdom]; [done|].
    split; [|done]. destruct (decide (t ∈ D)); [done|]. destruct Hnot. done.
Qed.

Lemma consumed_so_far_step ts tm c c' :
  consumed_so_far ts tm c -> step c c' -> consumed_so_far ts tm c'.
Proof.
  intros (D & Hans & Hsub & Hstore & Htrue) Hstep.
  destruct Hstep as [st cs i t Hi]. simpl in *.
  destruct (Forall2_lookup_r _ _ _ _ _ Hans Hi) as (t0 & Hts & Hti).
  assert (t0 = t) as ->.
  { destruct Hti as [?|(r & ? & _)]; congruence. }
  destruct (decide (t = "")) as [->|Hne].
  - rewrite ValidateAndConsumeToken_empty. exists D. simpl.
    split; [|split; [done|split; [done|]]].
    + rewrite <- (list_insert_id ts i "" Hts). apply Forall2_insert; [done|].
      right. exists false. split; [done|by left].
    + rewrite (results_insert_pending _ _ _ _ "") by done. simpl. lia.
  - rewrite ValidateAndConsumeToken_nonempty by done. exists (D ∪ {[t]}). simpl.
    split; [|split; [|split]].
    + rewrite <- (list_insert_id ts i t Hts). apply Forall2_insert.
      * eapply Forall2_impl; [exact Hans|]. intros t' c'. apply answered_mono.
        apply union_subseteq_l.
      * right. exists (bool_decide (is_Some (st !! t))). split; [done|right].
        apply elem_of_union_r. by apply elem_of_singleton.
    + apply union_least; [done|]. apply singleton_subseteq_l, elem_of_asked.
      split; [done|]. by eapply list_elem_of_lookup_2.
    + intros k. destruct (decide (k = t)) as [->|Hkt].
      * rewrite lookup_delete_eq, decide_True; [done|].
        apply elem_of_union_r. by apply elem_of_singleton.
      * rewrite lookup_delete_ne by done. rewrite Hstore.
        destruct (decide (k ∈ D)) as [Hk|Hk].
        -- rewrite decide_True; [done|]. by apply elem_of_union_l.
        -- rewrite decide_False; [done|]. rewrite elem_of_union, elem_of_singleton. tauto.
    + rewrite (results_insert_pending _ _ _ _ t) by done.
      rewrite size_add_consumed, Htrue. f_equal.
      rewrite Hstore. destruct (decide (t ∈ D)) as [Hin|Hnew].
      * rewrite bool_decide_eq_false_2 by (by intros [? ?]).
        by rewrite bool_decide_eq_false_2 by tauto.
      * destruct (decide (t ∈ dom tm)) as [Hdom|Hdom].
        -- rewrite bool_decide_eq_true_2 by (by apply elem_of_dom).
           by rewrite bool_decide_eq_true_2 by done.
        -- rewrite bool_decide_eq_false_2 by (by rewrite <- elem_of_dom).
           by rewrite bool_decide_eq_false_2 by tauto.
Qed.

Lemma consumed_so_far_rtc ts tm c c' :
  consumed_so_far ts tm c -> rtc step c c' -> consumed_so_far ts tm c'.
Proof. intros Hinv Hsteps. induction Hsteps; eauto using consumed_so_far_step. Qed.

(** Where every interleaving ends. *)
Lemma interleaving_outcome ts tm c :
  rtc step (tm, Pending <$> ts) c -> finished c.2 ->
  results true c.2 = size (asked ts ∩ dom tm) /\
  results true c.2 + results false c.2 = length ts /\
  c.1 = ConsumeTokens (filter (fun t => t <> "") ts) tm.
Proof.
  intros Hsteps Hfin.
  destruct (consumed_so_far_rtc ts tm _ c (consumed_so_far_init ts tm) Hsteps)
    as (D & Hans & Hsub & Hstore & Htrue).
  assert (D = asked ts) as ->.
  { apply set_eq. intros t. split; [apply Hsub|].
    intros Hin. apply elem_of_asked in Hin as [Hne Hin].
    apply list_elem_of_lookup_1 in Hin as [i Hi].
    destruct (Forall2_lookup_l _ _ _ _ _ Hans Hi) as (c0 & Hc0 & Hanswered).
    destruct Hanswered as [->|(r & _ & [?|?])]; [|done..].
    exfalso. unfold finished in Hfin. rewrite forallb_forall in Hfin.
    assert (has_returned (Pending t) = true); [|done].
    apply Hfin. apply list_elem_of_In. by eapply list_elem_of_lookup_2. }
  split; [done|]. split.
  - rewrite (results_total _ Hfin). symmetry. by eapply Forall2_length.
  - apply map_eq. intros k. rewrite Hstore, ConsumeTokens_lookup.
    destruct (decide (k ∈ asked ts)) as [Hk|Hk].
    + rewrite decide_True; [done|]. apply list_elem_of_filter. by apply elem_of_asked.
    + rewrite decide_False; [done|]. rewrite list_elem_of_filter. by rewrite <- elem_of_asked.
Qed.

Lemma ConsumeTokens_Count (ids : list string) tm :
  Count tm = Count (ConsumeTokens ids tm) + size (dom tm ∩ list_to_set ids : gset string).
Proof.
  rewrite (Count_size tm), (Count_size (ConsumeTokens ids tm)).
  rewrite <- (size_dom (D:=gset string) tm).
  rewrite <- (size_dom (D:=gset string) (ConsumeTokens ids tm)).
  rewrite ConsumeTokens_dom, size_difference_alt.
  assert (size (dom tm ∩ list_to_set ids : gset string) <= size (dom tm : gset string));
    [|lia].
  apply subseteq_size, intersection_subseteq_l.
Qed.

End Interleavings.

(** X12. Callers of [ValidateAndConsumeToken] with arbitrary identifiers
    (repeated, unknown or empty ones included), interleaved in any order:
    once all have returned, the number of callers that got [true] is the
    number of distinct non-empty identifiers asked for that were in the
    store, every caller got an answer, the store is the initial one without
    the identifiers asked for, and [Count] has dropped by exactly the number
    of successful calls. *)
Theorem every_interleaving_consumes_each_token_once
    (tokenIDs : list string) (tm : gmap string TokenManager.AuctionToken)
    (c : TokenManager.config) :
  rtc TokenManager.step (tm, TokenManager.Pending <$> tokenIDs) c ->
  TokenManager.finished c.2 ->
  TokenManager.results true c.2 = size (TokenManager.asked tokenIDs ∩ dom tm) /\
  TokenManager.results true c.2 + TokenManager.results false c.2 = length tokenIDs /\
  c.1 = TokenManager.ConsumeTokens (filter (fun t => t <> "") tokenIDs) tm /\
  TokenManager.Count tm = TokenManager.Count c.1 + TokenManager.results true c.2.
Proof.
  intros Hsteps Hfin.
  destruct (interleaving_outcome _ _ _ Hsteps Hfin) as (Htrue & Htotal & Hstore).
  repeat split; try done.
  rewrite Hstore, Htrue, (ConsumeTokens_Count (filter (fun t => t <> "") tokenIDs) tm).
  f_equal. f_equal. unfold TokenManager.asked.
  apply set_eq. intros k. rewrite !elem_of_intersection. tauto.
Qed.

(** Two issued tokens and five callers, two of them on the same token, one on
    the empty identifier and one on an unknown one, run in index order. *)
Lemma every_interleaving_consumes_each_token_once_witness :
  let tm := (TokenManager.GenerateToken "token-b" 0
               (TokenManager.GenerateToken "token-a" 0
                  TokenManager.NewTokenManager).2).2 in
  let tokenIDs := ["token-a"; "token-b"; "token-a"; ""; "token-z"] in
  let c := TokenManager.run (seq 0 5) (tm, TokenManager.Pending <$> tokenIDs) in
  (rtc TokenManager.step (tm, TokenManager.Pending <$> tokenIDs) c /\
   TokenManager.finished c.2) /\
  TokenManager.results true c.2 = size (TokenManager.asked tokenIDs ∩ dom tm) /\
  TokenManager.results true c.2 + TokenManager.results false c.2 = length tokenIDs /\
  c.1 = TokenManager.ConsumeTokens (filter (fun t => t <> "") tokenIDs) tm /\
  TokenManager.Count tm = TokenManager.Count c.1 + TokenManager.results true c.2.
Proof.
  intros tm tokenIDs c.
  assert (rtc TokenManager.step (tm, TokenManager.Pending <$> tokenIDs) c) as Hsteps
    by apply run_rtc.
  assert (TokenManager.finished c.2) as Hfin by (vm_compute; reflexivity).
  split; [by split|].
  exact (every_interleaving_consumes_each_token_once tokenIDs tm c Hsteps Hfin).
Defined.

(** X13. Callers of [ValidateAndConsumeToken] on pairwise different, issued,
    non-empty identifiers never disturb each other: in every interleaving
    each of them gets [true], each of their tokens is gone afterwards, no
    other entry is touched, and [Count] has dropped by the number of
    callers. *)
Theorem concurrent_different_tokens_all_succeed
    (tokenIDs : list string) (tm : gmap string TokenManager.AuctionToken)
    (c : TokenManager.config) :
  NoDup tokenIDs ->
  Forall (fun t => t <> "" /\ is_Some (tm !! t)) tokenIDs ->
  rtc TokenManager.step (tm, TokenManager.Pending <$> tokenIDs) c ->
  TokenManager.finished c.2 ->
  TokenManager.results true c.2 = length tokenIDs /\
  TokenManager.results false c.2 = 0 /\
  (forall k, c.1 !! k = if decide (k ∈ tokenIDs) then None else tm !! k) /\
  TokenManager.Count tm = TokenManager.Count c.1 + length tokenIDs.
Proof.
  intros Hnd Hall Hsteps Hfin.
  destruct (interleaving_outcome _ _ _ Hsteps Hfin) as (Htrue & Htotal & Hstore).
  rewrite Forall_forall in Hall.
  assert (filter (fun t => t <> "") tokenIDs = tokenIDs) as Hfilter.
  { clear -Hall. induction tokenIDs as [|t ts IH]; [done|].
    rewrite filter_cons_True by (apply Hall; left).
    f_equal. apply IH. intros k Hk. apply Hall. by right. }
  assert (TokenManager.results true c.2 = length tokenIDs) as Hwon.
  { rewrite Htrue. unfold TokenManager.asked. rewrite Hfilter.
    replace (list_to_set tokenIDs ∩ dom tm) with (list_to_set tokenIDs : gset string).
    - by apply size_list_to_set.
    - apply set_eq. intros k. rewrite elem_of_intersection, elem_of_list_to_set.
      split; [|tauto]. intros Hk. split; [done|]. apply elem_of_dom. by apply Hall. }
  split; [done|]. split; [lia|]. split.
  - intros k. rewrite Hstore, Hfilter. apply ConsumeTokens_lookup.
  - rewrite Hstore, Hfilter, (ConsumeTokens_Count tokenIDs tm). f_equal.
    rewrite <- (size_list_to_set (C:=gset string) tokenIDs) by done. f_equal.
    apply set_eq. intros k. rewrite elem_of_intersection, elem_of_list_to_set.
    split; [tauto|]. intros Hk. split; [|done]. apply elem_of_dom. by apply Hall.
Qed.

(** Three issued tokens, one caller each, run in the order 2, 0, 1. *)
Lemma concurrent_different_tokens_all_succeed_witness :
  let tm := (TokenManager.GenerateToken "token-c" 0
               (TokenManager.GenerateToken "token-b" 0
                  (TokenManager.GenerateToken "token-a" 0
                     TokenManager.NewTokenManager).2).2).2 in
  let tokenIDs := ["token-a"; "token-b"; "token-c"] in
  let c := TokenManager.run [2; 0; 1] (tm, TokenManager.Pending <$> tokenIDs) in
  (NoDup tokenIDs /\
   Forall (fun t => t <> "" /\ is_Some (tm !! t)) tokenIDs /\
   rtc TokenManager.step (tm, TokenManager.Pending <$> tokenIDs) c /\
   TokenManager.finished c.2) /\
  TokenManager.results true c.2 = length tokenIDs /\
  TokenManager.results false c.2 = 0 /\
  (forall k, c.1 !! k = if decide (k ∈ tokenIDs) then None else tm !! k) /\
  TokenManager.Count tm = TokenManager.Count c.1 + length tokenIDs.
Proof.
  intros tm tokenIDs c.
  assert (NoDup tokenIDs) as Hnd
    by (apply (bool_decide_unpack _); vm_compute; exact I).
  assert (Forall (fun t => t <> "" /\ is_Some (tm !! t)) tokenIDs) as Hall.
  { repeat constructor; try discriminate; eexists; reflexivity. }
  assert (rtc TokenManager.step (tm, TokenManager.Pending <$> tokenIDs) c) as Hsteps
    by apply run_rtc.
  assert (TokenManager.finished c.2) as Hfin by (vm_compute; reflexivity).
  split; [done|].
  exact (concurrent_different_tokens_all_succeed tokenIDs tm c Hnd Hall Hsteps Hfin).
Defined.

(** ** Sorted permutations of one slice *)

Section SortedPermutations.
Context {A : Type} (less : A -> A -> bool).

Lemma length_filter_Forall (P : A -> Prop) `{!forall x, Decision (P x)} (l : list A) :
  Forall P l -> length (filter P l) = length l.
Proof.
  induction 1 as [|x l Hx _ IH]; [done|].
  rewrite filter_cons_True by done. simpl. by rewrite IH.
Qed.

Lemma filter_Forall_not (P : A -> Prop) `{!forall x, Decision (P x)} (l : list A) :
  Forall (fun x => ~ P x) l -> filter P l = [].
Proof.
  induction 1 as [|x l Hx _ IH]; [done|]. by rewrite filter_cons_False.
Qed.

(** Two sorted arrangements of the same elements hold, at every index,
    elements of which neither is less than the other. *)
Lemma sorted_perm_same_level (l1 l2 : list A) i x y :
  (forall a, less a a = false) ->
  (forall a b c, a ∈ l1 -> b ∈ l1 -> c ∈ l1 ->
     less a b = true -> less a c = false -> less c b = true) ->
  l1 ≡ₚ l2 ->
  StronglySorted (fun a b => less b a = false) l1 ->
  StronglySorted (fun a b => less b a = false) l2 ->
  l1 !! i = Some x -> l2 !! i = Some y -> less x y = false.
Proof.
  intros Hirr Hneg Hperm Hs1 Hs2 Hx Hy.
  destruct (less x y) eqn:Hxy; [exfalso|done].
  pose (P := fun e => less e y = true).
  assert (S i <= length (filter P l1)) as Hmany.
  { rewrite <- (take_drop (S i) l1), filter_app, length_app.
    rewrite (length_filter_Forall P (take (S i) l1)).
    - rewrite length_take. apply lookup_lt_Some in Hx. lia.
    - apply Forall_lookup. intros j e Hj. apply lookup_take_Some in Hj as [Hj Hlt].
      unfold P. destruct (decide (j = i)) as [->|Hne]; [congruence|].
      apply (Hneg x y e).
      + by eapply list_elem_of_lookup_2.
      + rewrite Hperm. by eapply list_elem_of_lookup_2.
      + by eapply list_elem_of_lookup_2.
      + done.
      + apply (StronglySorted_lookup _ _ j i e x Hs1); [lia|done|done]. }
  assert (length (filter P l2) <= i) as Hfew.
  { rewrite <- (take_drop i l2), filter_app, length_app.
    rewrite (filter_Forall_not P (drop i l2)).
    - pose proof (length_filter P (take i l2)) as Hle. rewrite length_take in Hle.
      simpl. lia.
    - apply Forall_lookup. intros j e Hj. rewrite lookup_drop in Hj.
      unfold P. destruct j as [|j].
      + rewrite Nat.add_0_r in Hj. replace e with y by congruence.
        rewrite Hirr. discriminate.
      + rewrite (StronglySorted_lookup _ _ i (i + S j) y e Hs2); [discriminate|lia|done..]. }
  rewrite Hperm in Hmany. lia.
Qed.

End SortedPermutations.

(** ** The ranking as a whole *)

Section RankingOrder.
Import Core.
Context {rt : GoRuntime} {Hlaws : GoRuntimeLaws rt}.
Implicit Types (bids : list CoreBid) (e : BidEntry).

Lemma SortedBidders_lookup bids i b :
  SortedBidders (RankCoreBids bids) !! i = Some b <->
  exists e, sorted_entries bids !! i = Some e /\ bidder e = b.
Proof.
  rewrite RankCoreBids_result. simpl. rewrite list_lookup_fmap_Some.
  split; intros (e & H1 & H2); by exists e.
Qed.

Lemma HighestBids_group_bids bids :
  HighestBids (RankCoreBids bids) = group_bids 0 bids ∅.
Proof. by rewrite RankCoreBids_result. Qed.

Lemma sorted_entries_lookup_retained bids i e :
  sorted_entries bids !! i = Some e ->
  HighestBids (RankCoreBids bids) !! bidder e = Some (bid e).
Proof.
  intros Hi. rewrite HighestBids_group_bids. apply sorted_entries_elem.
  by eapply list_elem_of_lookup_2.
Qed.

(** The entry at a smaller index is priced at least as high. *)
Lemma sorted_entries_ge bids i j e1 e2 :
  no_NaN_price bids -> i < j ->
  sorted_entries bids !! i = Some e1 -> sorted_entries bids !! j = Some e2 ->
  float64_ge (Price (deref (bid e1))) (Price (deref (bid e2))) = true.
Proof.
  intros Hnan Hij H1 H2.
  apply float64_not_gt_ge.
  - apply (sorted_entries_no_NaN bids); [done|]. by eapply list_elem_of_lookup_2.
  - apply (sorted_entries_no_NaN bids); [done|]. by eapply list_elem_of_lookup_2.
  - apply (StronglySorted_lookup _ _ i j e1 e2 (sorted_entries_sorted bids Hnan));
      [lia|done|done].
Qed.

(** Rank and retained bid of a bidder, as an entry of the sorted slice. *)
Lemma ranked_entry bids b k ref :
  Ranks (RankCoreBids bids) !! b = Some k ->
  HighestBids (RankCoreBids bids) !! b = Some ref ->
  exists i, k = 1 + i /\ sorted_entries bids !! i = Some (mkBidEntry b ref).
Proof.
  intros Hk Href.
  destruct (RankCoreBids_consistent bids) as (_ & _ & _ & _ & _ & _ & Hback).
  destruct (Hback b k Hk) as (i & -> & Hi). exists i. split; [done|].
  apply SortedBidders_lookup in Hi as (e & Hi & <-).
  rewrite (sorted_entries_lookup_retained bids i e Hi) in Href.
  injection Href as <-. by destruct e.
Qed.

End RankingOrder.

(** X14. With no NaN price in the input, ranks follow retained prices for
    every pair of bidders, not only for neighbours: a bidder with a smaller
    rank number is retained at a price at least as high, and a bidder
    retained at a strictly higher price has a strictly smaller rank
    number. *)
Theorem rank_order_follows_price
    (rt : Core.GoRuntime) (Hlaws : Core.GoRuntimeLaws rt) (bids : list Core.CoreBid)
    (b1 b2 : string) (k1 k2 : nat) (r1 r2 : Core.BidRef) :
  Core.no_NaN_price bids ->
  Core.Ranks (Core.RankCoreBids bids) !! b1 = Some k1 ->
  Core.Ranks (Core.RankCoreBids bids) !! b2 = Some k2 ->
  Core.HighestBids (Core.RankCoreBids bids) !! b1 = Some r1 ->
  Core.HighestBids (Core.RankCoreBids bids) !! b2 = Some r2 ->
  (k1 < k2 ->
   Core.float64_ge (Core.Price (Core.deref r1)) (Core.Price (Core.deref r2)) = true) /\
  (Core.float64_gt (Core.Price (Core.deref r1)) (Core.Price (Core.deref r2)) = true ->
   k1 < k2).
Proof.
  intros Hnan Hk1 Hk2 Hr1 Hr2.
  destruct (ranked_entry bids b1 k1 r1 Hk1 Hr1) as (i1 & -> & Hi1).
  destruct (ranked_entry bids b2 k2 r2 Hk2 Hr2) as (i2 & -> & Hi2).
  split.
  - intros Hlt.
    exact (sorted_entries_ge bids i1 i2 _ _ Hnan ltac:(lia) Hi1 Hi2).
  - intros Hgt. destruct (decide (i1 < i2)) as [?|Hge]; [lia|exfalso].
    destruct (decide (i1 = i2)) as [->|Hne].
    + rewrite Hi1 in Hi2. injection Hi2 as _ <-.
      by rewrite float64_gt_irrefl in Hgt.
    + pose proof (sorted_entries_ge bids i2 i1 _ _ Hnan ltac:(lia) Hi2 Hi1) as Hle.
      simpl in Hle. apply float64_ge_not_gt in Hle. congruence.
Qed.

(** [TestRankCoreBids_Integration]: [bidder_c] at 2.75 against [bidder_b] at
    2.25. *)
Lemma rank_order_follows_price_witness :
  let result := @Core.RankCoreBids Core.runtime_forward Core.integration_bids in
  exists r1 r2,
    (Core.no_NaN_price Core.integration_bids /\
     Core.Ranks result !! "bidder_c" = Some 1 /\
     Core.Ranks result !! "bidder_b" = Some 3 /\
     Core.HighestBids result !! "bidder_c" = Some r1 /\
     Core.HighestBids result !! "bidder_b" = Some r2) /\
    (1 < 3 ->
     Core.float64_ge (Core.Price (Core.deref r1)) (Core.Price (Core.deref r2)) = true) /\
    (Core.float64_gt (Core.Price (Core.deref r1)) (Core.Price (Core.deref r2)) = true ->
     1 < 3).
Proof.
  intros result.
  assert (Core.no_NaN_price Core.integration_bids) as Hnan by repeat constructor.
  assert (Core.Ranks result !! "bidder_c" = Some 1) as Hk1 by (by vm_compute).
  assert (Core.Ranks result !! "bidder_b" = Some 3) as Hk2 by (by vm_compute).
  eexists _, _.
  assert (Core.HighestBids result !! "bidder_c" = Some _) as Hr1 by (by vm_compute).
  assert (Core.HighestBids result !! "bidder_b" = Some _) as Hr2 by (by vm_compute).
  split; [repeat split; assumption|].
  exact (rank_order_follows_price Core.runtime_forward runtime_forward_laws
           Core.integration_bids "bidder_c" "bidder_b" 1 3 _ _ Hnan Hk1 Hk2 Hr1 Hr2).
Defined.

Section RankingWinner.
Import Core.
Context {rt : GoRuntime} {Hlaws : GoRuntimeLaws rt}.
Implicit Types (bids : list CoreBid) (e : BidEntry).

(** Every bid of the input is priced no higher than the bid retained for its
    bidder, which is an entry of the sorted slice. *)
Lemma bid_below_retained_entry bids c :
  no_NaN_price bids -> c ∈ bids ->
  exists j e, sorted_entries bids !! j = Some e /\ bidder e = Bidder c /\
    float64_ge (Price (deref (bid e))) (Price c) = true.
Proof.
  intros Hnan Hc. pose proof Hc as Hin.
  apply list_elem_of_lookup_1 in Hc as [n Hn].
  destruct (group_bids_all bids) as [_ G2].
  destruct (G2 n c Hn) as (r & Hr & Hgt & _).
  assert (mkBidEntry (Bidder c) r ∈ sorted_entries bids) as He
    by (by apply sorted_entries_elem).
  apply list_elem_of_lookup_1 in He as [j Hj].
  exists j, (mkBidEntry (Bidder c) r). split; [done|]. split; [done|]. simpl.
  unfold no_NaN_price in Hnan. rewrite Forall_forall in Hnan.
  apply float64_not_gt_ge; [by apply Hnan| |done].
  apply Hnan. by apply (retained_in_bids bids (Bidder c)).
Qed.

Lemma sorted_entries_head bids :
  bids <> [] -> exists e, sorted_entries bids !! 0 = Some e.
Proof.
  intros Hne. destruct (sorted_entries bids) as [|e es] eqn:Hes; [|by exists e].
  exfalso. destruct bids as [|c bids]; [done|].
  pose proof (sorted_entries_length (c :: bids)) as Hlen. rewrite Hes in Hlen.
  unfold distinct_bidders in Hlen.
  assert (Bidder c ∈ remove_dups (Bidder <$> c :: bids)) as Hin
    by (apply elem_of_remove_dups; rewrite fmap_cons; left).
  destruct (remove_dups (Bidder <$> c :: bids)); [|discriminate Hlen].
  apply elem_of_nil in Hin. destruct Hin.
Qed.

End RankingWinner.

(** X15. With a non-empty input and no NaN price, the bidder ranked first is
    retained at a price at least as high as the price of every bid of the
    input, whoever placed it. *)
Theorem first_ranked_has_highest_price
    (rt : Core.GoRuntime) (Hlaws : Core.GoRuntimeLaws rt) (bids : list Core.CoreBid) :
  bids <> [] -> Core.no_NaN_price bids ->
  exists winner ref,
    Core.SortedBidders (Core.RankCoreBids bids) !! 0 = Some winner /\
    Core.Ranks (Core.RankCoreBids bids) !! winner = Some 1 /\
    Core.HighestBids (Core.RankCoreBids bids) !! winner = Some ref /\
    forall c, c ∈ bids ->
      Core.float64_ge (Core.Price (Core.deref ref)) (Core.Price c) = true.
Proof.
  intros Hne Hnan. destruct (sorted_entries_head bids Hne) as [e0 H0].
  exists (Core.bidder e0), (Core.bid e0).
  assert (Core.SortedBidders (Core.RankCoreBids bids) !! 0 = Some (Core.bidder e0)) as Hfirst.
  { apply SortedBidders_lookup. by exists e0. }
  split; [done|]. split.
  { destruct (RankCoreBids_consistent bids) as (_ & _ & _ & _ & _ & Hrank & _).
    by apply (Hrank _ 0). }
  split; [by apply (sorted_entries_lookup_retained bids 0)|].
  intros c Hc. destruct (bid_below_retained_entry bids c Hnan Hc) as (j & e & Hj & _ & Hge).
  destruct j as [|j].
  - rewrite H0 in Hj. by injection Hj as ->.
  - eapply float64_ge_trans; [|exact Hge].
    apply (sorted_entries_ge bids 0 (S j)); [done|lia|done|done].
Qed.

(** [bidder_a] bids 2.50, 2.75 and 2.75, [bidder_b] bids 2.25: [bidder_a] is
    first and no bid is priced above 2.75. *)
Lemma first_ranked_has_highest_price_witness :
  let result := @Core.RankCoreBids Core.runtime_forward Core.repeated_bids in
  (Core.repeated_bids <> [] /\ Core.no_NaN_price Core.repeated_bids) /\
  exists winner ref,
    Core.SortedBidders result !! 0 = Some winner /\
    Core.Ranks result !! winner = Some 1 /\
    Core.HighestBids result !! winner = Some ref /\
    forall c, c ∈ Core.repeated_bids ->
      Core.float64_ge (Core.Price (Core.deref ref)) (Core.Price c) = true.
Proof.
  intros result.
  assert (Core.repeated_bids <> []) as Hne by discriminate.
  assert (Core.no_NaN_price Core.repeated_bids) as Hnan by repeat constructor.
  split; [split; assumption|].
  exact (first_ranked_has_highest_price Core.runtime_forward runtime_forward_laws
           Core.repeated_bids Hne Hnan).
Defined.

(** X16. The bidders of the result are the bidders of the input, in each of
    its three parts: a bidder has a rank, has a retained bid, and is listed
    in [SortedBidders] exactly when one of the bids is theirs. In
    particular the result is empty only for an empty input. *)
Theorem ranked_bidders_are_the_input_bidders
    (rt : Core.GoRuntime) (Hlaws : Core.GoRuntimeLaws rt) (bids : list Core.CoreBid) :
  dom (Core.Ranks (Core.RankCoreBids bids)) = list_to_set (Core.Bidder <$> bids) /\
  dom (Core.HighestBids (Core.RankCoreBids bids)) = list_to_set (Core.Bidder <$> bids) /\
  (forall b, b ∈ Core.SortedBidders (Core.RankCoreBids bids) <-> b ∈ Core.Bidder <$> bids) /\
  (Core.SortedBidders (Core.RankCoreBids bids) = [] <-> bids = []).
Proof.
  assert (forall b, b ∈ Core.SortedBidders (Core.RankCoreBids bids) <->
                    b ∈ Core.Bidder <$> bids) as Hlisted.
  { intros b. rewrite RankCoreBids_result. simpl.
    rewrite <- (elem_of_list_to_set (C:=gset string) b (Core.Bidder <$> bids)).
    rewrite <- group_bids_dom, elem_of_dom, list_elem_of_fmap. split.
    - intros (e & -> & He). apply sorted_entries_elem in He. eauto.
    - intros [r Hr]. exists (Core.mkBidEntry b r). split; [done|].
      by apply sorted_entries_elem. }
  split; [|split; [|split; [done|]]].
  - apply set_eq. intros b. rewrite elem_of_list_to_set, <- Hlisted, elem_of_dom.
    destruct (RankCoreBids_consistent bids) as (_ & _ & _ & _ & _ & Hrank & Hback).
    split.
    + intros [k Hk]. destruct (Hback b k Hk) as (i & _ & Hi).
      by eapply list_elem_of_lookup_2.
    + intros Hb. apply list_elem_of_lookup_1 in Hb as [i Hi]. eauto.
  - rewrite HighestBids_group_bids. apply group_bids_dom.
  - split.
    + intros Hnil. destruct bids as [|c bids]; [done|exfalso].
      assert (Core.Bidder c ∈ Core.SortedBidders (Core.RankCoreBids (c :: bids))) as Hin
        by (apply Hlisted; left).
      rewrite Hnil in Hin. apply elem_of_nil in Hin. destruct Hin.
    + by intros ->.
Qed.

Section TwoRuns.
Import Core.
Implicit Types (bids : list CoreBid) (e : BidEntry).

(** Two runs sort the same entries. *)
Lemma sorted_entries_two_runs (rt1 rt2 : GoRuntime)
    (Hlaws1 : GoRuntimeLaws rt1) (Hlaws2 : GoRuntimeLaws rt2) bids :
  @sorted_entries rt1 bids ≡ₚ @sorted_entries rt2 bids.
Proof.
  rewrite (@sorted_entries_perm_entries rt1 Hlaws1).
  by rewrite (@sorted_entries_perm_entries rt2 Hlaws2).
Qed.

Lemma less_entry_between (x y z : BidEntry) :
  is_NaN (Price (deref (bid x))) = false ->
  is_NaN (Price (deref (bid z))) = false ->
  less_entry x y = true -> less_entry x z = false -> less_entry z y = true.
Proof.
  unfold less_entry. intros Hx Hz Hxy Hxz.
  eapply float64_ge_gt_trans; [|exact Hxy]. by apply float64_not_gt_ge.
Qed.

Lemma sorted_entries_same_level (rt1 rt2 : GoRuntime)
    (Hlaws1 : GoRuntimeLaws rt1) (Hlaws2 : GoRuntimeLaws rt2) bids i e1 e2 :
  no_NaN_price bids ->
  @sorted_entries rt1 bids !! i = Some e1 -> @sorted_entries rt2 bids !! i = Some e2 ->
  less_entry e1 e2 = false.
Proof.
  intros Hnan H1 H2.
  apply (sorted_perm_same_level less_entry
           (@sorted_entries rt1 bids) (@sorted_entries rt2 bids) i); try done.
  - intros e. apply float64_gt_irrefl.
  - intros a b c Ha _ Hc. apply less_entry_between.
    + by apply (@sorted_entries_no_NaN rt1 Hlaws1 bids).
    + by apply (@sorted_entries_no_NaN rt1 Hlaws1 bids).
  - by apply sorted_entries_two_runs.
  - by apply (@sorted_entries_sorted rt1 Hlaws1).
  - by apply (@sorted_entries_sorted rt2 Hlaws2).
Qed.

End TwoRuns.

(** X17. What two runs of [RankCoreBids] on the same input can differ in.
    Whatever order [range] picks and whatever [sort.Slice] does with ties,
    [HighestBids] is the same map in both runs; and with no NaN price, the
    bidders found at one position of [SortedBidders] in the two runs are
    retained at prices that compare equal. Only the order among bidders at
    equal prices depends on the run. *)
Theorem runs_agree_on_bids_and_price_per_rank
    (rt1 rt2 : Core.GoRuntime)
    (Hlaws1 : Core.GoRuntimeLaws rt1) (Hlaws2 : Core.GoRuntimeLaws rt2)
    (bids : list Core.CoreBid) :
  Core.HighestBids (@Core.RankCoreBids rt1 bids) =
  Core.HighestBids (@Core.RankCoreBids rt2 bids) /\
  (Core.no_NaN_price bids ->
   forall i b1 b2,
     Core.SortedBidders (@Core.RankCoreBids rt1 bids) !! i = Some b1 ->
     Core.SortedBidders (@Core.RankCoreBids rt2 bids) !! i = Some b2 ->
     exists r1 r2,
       Core.HighestBids (@Core.RankCoreBids rt1 bids) !! b1 = Some r1 /\
       Core.HighestBids (@Core.RankCoreBids rt2 bids) !! b2 = Some r2 /\
       Core.float64_ge (Core.Price (Core.deref r1)) (Core.Price (Core.deref r2)) = true /\
       Core.float64_ge (Core.Price (Core.deref r2)) (Core.Price (Core.deref r1)) = true).
Proof.
  split.
  { by rewrite (@HighestBids_group_bids rt1 Hlaws1), (@HighestBids_group_bids rt2 Hlaws2). }
  intros Hnan i b1 b2 H1 H2.
  apply (@SortedBidders_lookup rt1 Hlaws1) in H1 as (e1 & H1 & <-).
  apply (@SortedBidders_lookup rt2 Hlaws2) in H2 as (e2 & H2 & <-).
  exists (Core.bid e1), (Core.bid e2).
  split; [by apply (@sorted_entries_lookup_retained rt1 Hlaws1 bids i)|].
  split; [by apply (@sorted_entries_lookup_retained rt2 Hlaws2 bids i)|].
  assert (Core.is_NaN (Core.Price (Core.deref (Core.bid e1))) = false) as Hn1.
  { apply (@sorted_entries_no_NaN rt1 Hlaws1 bids); [done|].
    by eapply list_elem_of_lookup_2. }
  assert (Core.is_NaN (Core.Price (Core.deref (Core.bid e2))) = false) as Hn2.
  { apply (@sorted_entries_no_NaN rt2 Hlaws2 bids); [done|].
    by eapply list_elem_of_lookup_2. }
  split; apply float64_not_gt_ge; try done.
  - apply (sorted_entries_same_level rt2 rt1 Hlaws2 Hlaws1 bids i e2 e1 Hnan H2 H1).
  - apply (sorted_entries_same_level rt1 rt2 Hlaws1 Hlaws2 bids i e1 e2 Hnan H1 H2).
Qed.

(** Two bidders at 2.50: the two runs put a different bidder first, at the
    same price. *)
Lemma runs_agree_on_bids_and_price_per_rank_witness :
  let forward := @Core.RankCoreBids Core.runtime_forward Core.tied_bids in
  let backward := @Core.RankCoreBids Core.runtime_backward Core.tied_bids in
  Core.no_NaN_price Core.tied_bids /\
  Core.SortedBidders forward <> Core.SortedBidders backward /\
  Core.HighestBids forward = Core.HighestBids backward /\
  forall i b1 b2,
    Core.SortedBidders forward !! i = Some b1 ->
    Core.SortedBidders backward !! i = Some b2 ->
    exists r1 r2,
      Core.HighestBids forward !! b1 = Some r1 /\
      Core.HighestBids backward !! b2 = Some r2 /\
      Core.float64_ge (Core.Price (Core.deref r1)) (Core.Price (Core.deref r2)) = true /\
      Core.float64_ge (Core.Price (Core.deref r2)) (Core.Price (Core.deref r1)) = true.
Proof.
  intros forward backward.
  assert (Core.no_NaN_price Core.tied_bids) as Hnan by repeat constructor.
  split; [exact Hnan|]. split; [by vm_compute|].
  destruct (runs_agree_on_bids_and_price_per_rank
              Core.runtime_forward Core.runtime_backward
              runtime_forward_laws runtime_backward_laws Core.tied_bids)
    as [Hsame Hprice].
  split; [exact Hsame|]. exact (Hprice Hnan).
Defined.

(** ** Bidders do not influence each other's retained bid *)

Section OwnBids.
Import Core.
Implicit Types (bids : list CoreBid) (m : gmap string BidRef).

Lemma group_bids_own_bids b bids : forall i j m m',
  deref <$> (m !! b) = deref <$> (m' !! b) ->
  deref <$> (group_bids i bids m !! b) =
  deref <$> (group_bids j (filter (fun c => Bidder c = b) bids) m' !! b).
Proof.
  induction bids as [|c bids IH]; intros i j m m' Hm; [done|].
  destruct (decide (Bidder c = b)) as [Hc|Hc].
  - rewrite filter_cons_True by done. cbn [group_bids]. apply IH.
    rewrite Hc.
    destruct (m !! b) as [r|] eqn:Hr, (m' !! b) as [r'|] eqn:Hr'; simpl in Hm;
      try discriminate; cbv beta iota.
    + injection Hm as Hm. destruct r as [ir cr], r' as [ir' cr'].
      cbn [deref] in *. subst cr'.
      destruct (float64_gt (Price c) (Price cr)).
      * by rewrite !lookup_insert_eq.
      * by rewrite Hr, Hr'.
    + by rewrite !lookup_insert_eq.
  - rewrite filter_cons_False by done. cbn [group_bids]. apply IH.
    rewrite <- Hm.
    destruct (m !! Bidder c) as [r|]; cbv beta iota.
    + destruct (float64_gt (Price c) (Price (deref r))); [|done].
      by rewrite lookup_insert_ne.
    + by rewrite lookup_insert_ne.
Qed.

End OwnBids.

(** X18. The bid retained for a bidder depends on that bidder's own bids
    only: ranking the whole input and ranking just the bids of [b] retain
    the same bid for [b] (at a different index of the input), whatever the
    other bidders submitted, NaN prices included. *)
Theorem retained_bid_depends_on_own_bids_only
    (rt : Core.GoRuntime) (Hlaws : Core.GoRuntimeLaws rt)
    (bids : list Core.CoreBid) (b : string) :
  Core.deref <$> (Core.HighestBids (Core.RankCoreBids bids) !! b) =
  Core.deref <$>
    (Core.HighestBids
       (Core.RankCoreBids (filter (fun c => Core.Bidder c = b) bids)) !! b).
Proof.
  rewrite !HighestBids_group_bids. by apply group_bids_own_bids.
Qed.

(** ** Issuing tokens *)

Section Issuing.
Import TokenManager.
Implicit Types (tm : gmap string AuctionToken) (issued : list (string * Z)).

Lemma GenerateToken_all_dom issued : forall tm,
  dom (foldl perform tm ((fun p => CallGenerateToken p.1 p.2) <$> issued)) =
  dom tm ∪ (list_to_set issued.*1 : gset string).
Proof.
  induction issued as [|[uuid now] issued IH]; intros tm.
  - simpl. apply set_eq. intros k. rewrite elem_of_union, elem_of_empty. tauto.
  - rewrite !fmap_cons. cbn [foldl fst snd perform]. rewrite IH.
    unfold GenerateToken, Store. cbn [snd].
    apply set_eq. intros k.
    rewrite !elem_of_union, elem_of_dom, !elem_of_list_to_set, elem_of_cons.
    destruct (decide (k = uuid)) as [->|Hne].
    + rewrite lookup_insert_eq. split; [tauto|]. intros _. left. by eexists.
    + rewrite lookup_insert_ne by done. rewrite elem_of_dom. tauto.
Qed.

End Issuing.

(** X19. [Count] after a series of [GenerateToken] calls is the number of
    distinct identifiers the store then holds: the ones it held before and
    the ones issued. An identifier issued twice is stored once; when the
    issued identifiers are pairwise different and new, [Count] has grown by
    the number of calls. *)
Theorem count_after_generating
    (issued : list (string * Z)) (tm : gmap string TokenManager.AuctionToken) :
  let tm' := foldl TokenManager.perform tm
               ((fun p => TokenManager.CallGenerateToken p.1 p.2) <$> issued) in
  TokenManager.Count tm' = size (dom tm ∪ (list_to_set issued.*1 : gset string)) /\
  (NoDup issued.*1 -> (forall uuid, uuid ∈ issued.*1 -> tm !! uuid = None) ->
   TokenManager.Count tm' = TokenManager.Count tm + length issued).
Proof.
  intros tm'.
  assert (TokenManager.Count tm' = size (dom tm ∪ (list_to_set issued.*1 : gset string)))
    as Hcount.
  { rewrite (Count_size tm'), <- (size_dom (D:=gset string) tm'). unfold tm'.
    by rewrite GenerateToken_all_dom. }
  split; [done|]. intros Hnd Hnew. rewrite Hcount, size_union.
  - rewrite size_dom, size_list_to_set, length_fmap by done.
    by rewrite (Count_size tm).
  - intros k Hk Hissued. apply elem_of_list_to_set in Hissued.
    apply elem_of_dom in Hk as [token Hk]. rewrite (Hnew k Hissued) in Hk. discriminate.
Qed.

(** [TestTokenManager_Count]: five tokens issued to a new manager. *)
Lemma count_after_generating_witness :
  let issued := [("token-1", 1%Z); ("token-2", 2%Z); ("token-3", 3%Z);
                 ("token-4", 4%Z); ("token-5", 5%Z)] in
  let tm' := foldl TokenManager.perform TokenManager.NewTokenManager
               ((fun p => TokenManager.CallGenerateToken p.1 p.2) <$> issued) in
  (NoDup issued.*1 /\
   (forall uuid, uuid ∈ issued.*1 -> TokenManager.NewTokenManager !! uuid = None)) /\
  TokenManager.Count tm' = 5.
Proof.
  intros issued tm'.
  assert (NoDup issued.*1) as Hnd
    by (apply (bool_decide_unpack _); vm_compute; exact I).
  assert (forall uuid, uuid ∈ issued.*1 -> TokenManager.NewTokenManager !! uuid = None)
    as Hnew by (intros uuid _; apply lookup_empty).
  split; [split; assumption|].
  exact (proj2 (count_after_generating issued TokenManager.NewTokenManager) Hnd Hnew).
Defined.

(** ** What [EncryptHybrid] returns stands for one plaintext *)

Section HybridUnique.
Import Enclave.
Context {L : GoLibrary} {Hlaws : GoLibraryLaws L}.

(** The parts of a result of [EncryptHybrid]. *)
Lemma EncryptHybrid_assembled plaintext pub rand rand' result :
  EncryptHybrid plaintext pub rand = (inr result, rand') ->
  exists aesKey block aesgcm nonceBytes wrapped rand0,
    length aesKey = 32 /\ aes_NewCipher aesKey = Some block /\
    cipher_NewGCM block = Some aesgcm /\ length nonceBytes = NonceSize aesgcm /\
    rsa_EncryptOAEP rand0 pub aesKey = (Some wrapped, rand') /\
    result = {| EncryptedAESKey := base64_EncodeToString wrapped;
                EncryptedPayload :=
                  base64_EncodeToString (Seal aesgcm nonceBytes plaintext);
                Nonce := base64_EncodeToString nonceBytes |}.
Proof.
  unfold EncryptHybrid. intros Henc.
  destruct (rand_Read 32 rand) as [[aesKey|] rand1] eqn:Hkey; [|discriminate].
  destruct (aes_NewCipher aesKey) as [block|] eqn:Hblock; [|discriminate].
  destruct (cipher_NewGCM block) as [aesgcm|] eqn:Hgcm; [|discriminate].
  destruct (rand_Read (NonceSize aesgcm) rand1) as [[nonceBytes|] rand2] eqn:Hnonce;
    [|discriminate].
  destruct (rsa_EncryptOAEP rand2 pub aesKey) as [[wrapped|] rand3] eqn:Hwrap;
    [|discriminate].
  injection Henc as <- <-.
  exists aesKey, block, aesgcm, nonceBytes, wrapped, rand2.
  repeat split; eauto using rand_Read_length.
Qed.

End HybridUnique.

(** X20. What [EncryptHybrid] returns stands for one plaintext only: if two
    calls, on the plaintexts [x] and [y] and with whatever randomness each
    of them drew, return the same three strings under the public key of a
    private key, then [x] and [y] are the same bytes. *)
Theorem encrypted_triple_determines_plaintext
    (L : Enclave.GoLibrary) (Hlaws : Enclave.GoLibraryLaws L)
    (x y : list byte) (priv : Enclave.PrivateKey)
    (rand1 rand1' rand2 rand2' : Enclave.Rand)
    (result : Enclave.HybridEncryptionResult) :
  Enclave.EncryptHybrid x (Enclave.PublicKeyOf priv) rand1 = (inr result, rand1') ->
  Enclave.EncryptHybrid y (Enclave.PublicKeyOf priv) rand2 = (inr result, rand2') ->
  x = y.
Proof.
  intros Hx Hy.
  apply EncryptHybrid_assembled in Hx
    as (k1 & b1 & g1 & n1 & w1 & r1 & Hk1 & Hb1 & Hg1 & Hn1 & Hw1 & ->).
  apply EncryptHybrid_assembled in Hy
    as (k2 & b2 & g2 & n2 & w2 & r2 & Hk2 & Hb2 & Hg2 & Hn2 & Hw2 & Hsame).
  pose proof (DecryptHybrid_assembled priv r1 rand1' k1 b1 g1 n1 w1 x
                Hk1 Hb1 Hg1 Hn1 Hw1) as Hdx.
  pose proof (DecryptHybrid_assembled priv r2 rand2' k2 b2 g2 n2 w2 y
                Hk2 Hb2 Hg2 Hn2 Hw2) as Hdy.
  injection Hsame as Hkey Hpayload Hnonce.
  rewrite Hkey, Hpayload, Hnonce, Hdy in Hdx. by injection Hdx.
Qed.

(** The plaintext of [TestDecryptHybrid_WrongPrivateKey], encrypted twice
    under the stand-in library. *)
Lemma encrypted_triple_determines_plaintext_witness :
  let x := String.list_byte_of_string "secret message" in
  exists result,
    Enclave.EncryptHybrid (L:=Enclave.stand_in_library) x x01 tt = (inr result, tt) /\
    x = x.
Proof.
  intros x. eexists. split; [reflexivity|].
  refine (encrypted_triple_determines_plaintext
            Enclave.stand_in_library stand_in_library_laws x x x01 tt tt tt tt _ _ _);
    reflexivity.
Defined.

(** ** The order of the input *)

(** X21. The price a bidder is retained at does not depend on the order in
    which the bids arrive: for two inputs that hold the same bids in
    different orders, with no NaN price, the bids retained for a bidder in
    the two results are priced equal (which of several bids at that price is
    retained does depend on the order). *)
Theorem retained_price_ignores_input_order
    (rt1 rt2 : Core.GoRuntime)
    (Hlaws1 : Core.GoRuntimeLaws rt1) (Hlaws2 : Core.GoRuntimeLaws rt2)
    (bids bids' : list Core.CoreBid) (b : string) :
  bids ≡ₚ bids' -> Core.no_NaN_price bids -> b ∈ Core.Bidder <$> bids ->
  exists r r',
    Core.HighestBids (@Core.RankCoreBids rt1 bids) !! b = Some r /\
    Core.HighestBids (@Core.RankCoreBids rt2 bids') !! b = Some r' /\
    Core.float64_ge (Core.Price (Core.deref r)) (Core.Price (Core.deref r')) = true /\
    Core.float64_ge (Core.Price (Core.deref r')) (Core.Price (Core.deref r)) = true.
Proof.
  intros Hperm Hnan Hb.
  assert (b ∈ Core.Bidder <$> bids') as Hb' by (by rewrite <- Hperm).
  assert (forall c, c ∈ bids -> Core.is_NaN (Core.Price c) = false) as Hok.
  { by apply Forall_forall. }
  destruct (@RankCoreBids_retains rt1 Hlaws1 bids b Hb) as (r & Hr & Hat & Hown & Hmax).
  destruct (@RankCoreBids_retains rt2 Hlaws2 bids' b Hb') as (r' & Hr' & Hat' & Hown' & Hmax').
  exists r, r'. split; [done|]. split; [done|].
  assert (Core.deref r ∈ bids) as Hin by (by eapply list_elem_of_lookup_2).
  assert (Core.deref r' ∈ bids) as Hin'.
  { rewrite Hperm. by eapply list_elem_of_lookup_2. }
  split; apply float64_not_gt_ge; auto.
  - apply list_elem_of_lookup_1 in Hin' as [j Hj]. by apply (Hmax j).
  - rewrite Hperm in Hin. apply list_elem_of_lookup_1 in Hin as [j Hj].
    by apply (Hmax' j).
Qed.

(** The bids of [repeated_bids] and the same bids in reverse order:
    [bidder_a] is retained at 2.75 in both, by the bid [bid_a_002] in one and
    [bid_a_003] in the other. *)
Lemma retained_price_ignores_input_order_witness :
  let bids := Core.repeated_bids in
  let bids' := reverse Core.repeated_bids in
  (bids ≡ₚ bids' /\ Core.no_NaN_price bids /\ "bidder_a" ∈ Core.Bidder <$> bids) /\
  exists r r',
    Core.HighestBids (@Core.RankCoreBids Core.runtime_forward bids)
      !! "bidder_a" = Some r /\
    Core.HighestBids (@Core.RankCoreBids Core.runtime_forward bids')
      !! "bidder_a" = Some r' /\
    Core.float64_ge (Core.Price (Core.deref r)) (Core.Price (Core.deref r')) = true /\
    Core.float64_ge (Core.Price (Core.deref r')) (Core.Price (Core.deref r)) = true.
Proof.
  intros bids bids'.
  assert (bids ≡ₚ bids') as Hperm by (symmetry; apply reverse_Permutation).
  assert (Core.no_NaN_price bids) as Hnan by repeat constructor.
  assert ("bidder_a" ∈ Core.Bidder <$> bids) as Hb by (vm_compute; left).
  split; [repeat split; assumption|].
  exact (retained_price_ignores_input_order
           Core.runtime_forward Core.runtime_forward
           runtime_forward_laws runtime_forward_laws bids bids' "bidder_a"
           Hperm Hnan Hb).
Defined.

(** ** Instances of the properties of the ranking on the test inputs *)

(** [TestRankCoreBids_Integration]: the three bidders of the input are the
    bidders of each part of the result. *)
Lemma ranked_bidders_are_the_input_bidders_witness :
  let result := @Core.RankCoreBids Core.runtime_forward Core.integration_bids in
  dom (Core.Ranks result) = list_to_set (Core.Bidder <$> Core.integration_bids) /\
  dom (Core.HighestBids result) = list_to_set (Core.Bidder <$> Core.integration_bids) /\
  (forall b, b ∈ Core.SortedBidders result <-> b ∈ Core.Bidder <$> Core.integration_bids) /\
  (Core.SortedBidders result = [] <-> Core.integration_bids = []).
Proof.
  exact (ranked_bidders_are_the_input_bidders
           Core.runtime_forward runtime_forward_laws Core.integration_bids).
Defined.

(** [bidder_a] among the bids of [repeated_bids], and alone. *)
Lemma retained_bid_depends_on_own_bids_only_witness :
  Core.deref <$>
    (Core.HighestBids (@Core.RankCoreBids Core.runtime_forward Core.repeated_bids)
       !! "bidder_a") =
  Core.deref <$>
    (Core.HighestBids
       (@Core.RankCoreBids Core.runtime_forward
          (filter (fun c => Core.Bidder c = "bidder_a") Core.repeated_bids))
       !! "bidder_a").
Proof.
  exact (retained_bid_depends_on_own_bids_only
           Core.runtime_forward runtime_forward_laws Core.repeated_bids "bidder_a").
Defined.
